(** * ffcutter: timeline editing engine, timestamp index and neighbour search

    A shallow embedding of the core of [ffcutter.py]: the nearest-neighbour
    search ([sidesi], [sides], [closest]), the segment editor
    ([GUI.put_anchor], [GUI.del_anchor], [GUI.apply_state]), the inverter
    ([GUI.get_inversed_segments]) and the two timestamp index builders
    ([GUI._load_timestamps_from_packets], [GUI._load_timestamps_from_frames]).

    Timestamps are Python floats in the source.  The code compares them and,
    in a few places, subtracts them; every finite float is a rational number
    and float comparison is comparison of those rationals, so timestamps are
    modelled as [Q] with the boolean comparisons of [QArith].  Python's [==]
    on numbers is numeric equality, i.e. [Qeq_bool].  Subtraction is exact
    in the model (no rounding).  The frame duration [1/self.player.fps] of
    [to_next_keyframe] and of the snapping step is a parameter of the
    model, standing for the float Python computed.

    The editor changes its object in place.  A call is modelled by the
    object it leaves behind together with its outcome ([put_anchor_call],
    [apply_state_call]), since an exception does not undo the assignments
    made before it; [put_anchor], [run] and [apply_state] give the outcome
    alone, as a value of [py]. *)

From Stdlib Require Import QArith Qabs Lqa ZArith Lia List Bool
  Sorting.Sorted.
Import ListNotations.
Open Scope Q_scope.

(** * Part I: the embedding *)

(** ** Python values and exceptions *)

(** The exceptions the modelled code can raise.  [OutOfFuel] is not a Python
    exception: it marks that the iteration bound of a modelled loop was hit
    before the loop had finished. *)
Inductive exn : Type :=
| IndexError
| ValueError
| UnboundLocalError
| OutOfFuel.

(** The outcome of running a piece of Python code: it raises, or it
    completes with a value. *)
Inductive py (A : Type) : Type :=
| Raises (e : exn)
| Returns (a : A).
Arguments Raises {A} e.
Arguments Returns {A} a.

Definition bind {A B : Type} (m : py A) (k : A -> py B) : py B :=
  match m with
  | Raises e => Raises e
  | Returns a => k a
  end.

Notation "x <- m ;; k" := (bind m (fun x => k))
  (at level 61, m at next level, right associativity).
Notation "' p <- m ;; k" := (bind m (fun q => let p := q in k))
  (at level 61, p pattern, m at next level, right associativity).

(** ** Comparisons on timestamps *)

Module Ts.

Definition t : Type := Q.

(** [x <= y] *)
Definition leb (x y : Q) : bool := Qle_bool x y.
(** [x < y] (also written [y > x] in the source) *)
Definition ltb (x y : Q) : bool := negb (Qle_bool y x).
(** [x == y] *)
Definition eqb (x y : Q) : bool := Qeq_bool x y.
(** [abs(x)] *)
Definition abs (x : Q) : Q := Qabs x.

End Ts.

(** ** NearestNeighborFinder: [sidesi], [sides], [closest] *)

Module Finder.

Section Scan.

Variables (t min_diff : Q) (max_diff : option Q).

(** The test both inner loops apply to a distance [d]:
    [d != 0 and min_diff <= d]. *)
Definition qualifies (d : Q) : bool :=
  negb (Ts.eqb d 0) && Ts.leb min_diff d.

(** [max_diff is not None and d > max_diff] *)
Definition too_far (d : Q) : bool :=
  match max_diff with
  | Some m => Ts.ltb m d
  | None => false
  end.

(** The first [while True] loop: [ri] runs upwards until [len(ls)].
    [rest] is [ls[ri:]], so its head is [ls[ri]]. *)
Fixpoint scan_right (rest : list Q) (ri : nat) : option nat :=
  match rest with
  | [] => None
  | e :: rest' =>
      let d := e - t in
      if qualifies d then
        if too_far d then scan_right rest' (S ri) else Some ri
      else scan_right rest' (S ri)
  end.

(** The second (and the [else:] branch's) [while True] loop: [li] runs
    downwards until [-1].  The argument [n] is [li + 1]. *)
Fixpoint scan_left (ls : list Q) (n : nat) : option nat :=
  match n with
  | O => None
  | S li =>
      let d := t - nth li ls 0 in
      if qualifies d then
        if too_far d then scan_left ls li else Some li
      else scan_left ls li
  end.

(** [for i, e in enumerate(ls): if e >= target: ...]: the first index
    whose element is [>= target]. [i] is the index of the head. *)
Fixpoint first_ge (ls : list Q) (i : nat) : option nat :=
  match ls with
  | [] => None
  | e :: ls' => if Ts.leb t e then Some i else first_ge ls' (S i)
  end.

Definition sidesi (sorted_elements : list Q) : option nat * option nat :=
  let ls := sorted_elements in
  match first_ge ls 0 with
  | Some i =>
      let b := scan_right (skipn i ls) i in
      let a := scan_left ls i in
      (a, b)
  | None =>
      match ls with
      | [] => (None, None)
      | _ => (scan_left ls (length ls), None)
      end
  end.

(** Truthiness of an index returned by [sidesi]: [None] and [0] are
    falsy. *)
Definition truthy (i : option nat) : bool :=
  match i with
  | Some (S _) => true
  | _ => false
  end.

(** [sides]: [if ai: a = elements[ai]]. *)
Definition sides (elements : list Q) : option Q * option Q :=
  let '(ai, bi) := sidesi elements in
  let a := if truthy ai then
             match ai with Some i => nth_error elements i | None => None end
           else None in
  let b := if truthy bi then
             match bi with Some i => nth_error elements i | None => None end
           else None in
  (a, b).

End Scan.

(** [min(elements, key=lambda e: abs(target-e))]: the first element at
    minimal distance; [None] stands for the [ValueError] of an empty
    sequence, which [closest] catches. *)
Fixpoint min_by_dist (target : Q) (elements : list Q) : option Q :=
  match elements with
  | [] => None
  | e :: rest =>
      match min_by_dist target rest with
      | None => Some e
      | Some m =>
          if Ts.leb (Ts.abs (target - e)) (Ts.abs (target - m))
          then Some e else Some m
      end
  end.

(** [closest(target, elements, max_diff=None)]; the result [None] is
    Python's [None]. *)
Definition closest (target : Q) (elements : list Q) (max_diff : option Q)
  : option Q :=
  match min_by_dist target elements with
  | None => None
  | Some el =>
      match max_diff with
      | None => Some el
      | Some m => if Ts.ltb (Ts.abs (el - target)) m then Some el else None
      end
  end.

End Finder.

(** ** Python list operations used by the segment editor *)

Module PyList.

(** [l.pop(i)]: a negative index counts from the end; an index out of
    range raises [IndexError]. *)
Definition pop {A : Type} (l : list A) (i : Z) : py (A * list A) :=
  let n := Z.of_nat (length l) in
  let k := if (i <? 0)%Z then (i + n)%Z else i in
  if ((k <? 0) || (n <=? k))%Z then Raises IndexError
  else
    match nth_error l (Z.to_nat k) with
    | Some x =>
        Returns (x, firstn (Z.to_nat k) l ++ skipn (S (Z.to_nat k)) l)
    | None => Raises IndexError
    end.

(** [l[i]] with the same index rules. *)
Definition getitem {A : Type} (l : list A) (i : Z) : py A :=
  let n := Z.of_nat (length l) in
  let k := if (i <? 0)%Z then (i + n)%Z else i in
  if ((k <? 0) || (n <=? k))%Z then Raises IndexError
  else
    match nth_error l (Z.to_nat k) with
    | Some x => Returns x
    | None => Raises IndexError
    end.

(** [l.remove(x)] for an equality test [eqb]: deletes the first element
    equal to [x], raises [ValueError] when there is none. *)
Fixpoint remove {A : Type} (eqb : A -> A -> bool) (x : A) (l : list A)
  : py (list A) :=
  match l with
  | [] => Raises ValueError
  | y :: r =>
      if eqb y x then Returns r
      else match remove eqb x r with
           | Raises e => Raises e
           | Returns r' => Returns (y :: r')
           end
  end.

End PyList.

(** ** SegmentEditor: the Timeline and its two operations *)

Definition segment : Type := (Q * Q)%type.

(** Equality of two tuples of floats: component-wise [==]. *)
Definition seg_eqb (s1 s2 : segment) : bool :=
  Ts.eqb (fst s1) (fst s2) && Ts.eqb (snd s1) (snd s2).

(** [GUI.segments] and [GUI.anchor]. *)
Record Timeline : Type := mkTimeline {
  segments : list segment;
  anchor : option Q
}.

(** A fresh [GUI]: [self.segments = []], [self.anchor = None]. *)
Definition empty_timeline : Timeline :=
  {| segments := []; anchor := None |}.

(** [sorted(segs, key=lambda t: t[0])]: Python's sort is stable, so its
    result is the one of a stable insertion sort on the start. *)
Fixpoint insert_by_start (s : segment) (l : list segment) : list segment :=
  match l with
  | [] => [s]
  | x :: r =>
      if Ts.leb (fst s) (fst x) then s :: l else x :: insert_by_start s r
  end.

Fixpoint sorted_by_start (l : list segment) : list segment :=
  match l with
  | [] => []
  | x :: r => insert_by_start x (sorted_by_start r)
  end.

(** [a <= x <= b] *)
Definition inside (x : Q) (s : segment) : bool :=
  Ts.leb (fst s) x && Ts.leb x (snd s).

(** The classification loop of [put_anchor]:
    [for i, seg in enumerate(self.segments)], updating [aai] and [bbi]. *)
Fixpoint locate (aa bb : Q) (segs : list segment) (i aai bbi : Z) : Z * Z :=
  match segs with
  | [] => (aai, bbi)
  | seg :: rest =>
      let aai := if inside aa seg then i else aai in
      let bbi := if inside bb seg then i else bbi in
      locate aa bb rest (i + 1) aai bbi
  end.

(** The local function [remove_between]: drop every segment with
    [a >= aa and b <= bb]. *)
Definition remove_between (aa bb : Q) (segs : list segment) : list segment :=
  filter (fun seg => negb (Ts.leb aa (fst seg) && Ts.leb (snd seg) bb)) segs.

(** The [if]/[elif] chain of [put_anchor] (lines 722-760), for sorted
    endpoints [aa <= bb] located at [aai] and [bbi].  The result is the
    list [self.segments] holds when the chain is left, and how it is left:
    [Returns move] with the value of the local variable [move] ([None] when
    no branch ran, so that [move] was never assigned), or [Raises e] when a
    [pop] raised. *)
Definition put_moves (split_if_inside : bool) (aa bb : Q) (aai bbi : Z)
    (segs : list segment) : list segment * py (option Z) :=
  if ((aai =? -1) && (bbi =? -1))%Z then
    (* both sides on clean range *)
    (remove_between aa bb segs ++ [(aa, bb)], Returns (Some 1%Z))
  else if ((-1 <? aai) && (aai =? bbi))%Z then
    (* fully inside another segment -> split that segment *)
    match PyList.pop segs aai with
    | Raises e => (segs, Raises e)
    | Returns ((a, b), segs) =>
        if Ts.eqb a aa then (segs ++ [(bb, b)], Returns (Some 2%Z))
        else if Ts.eqb b bb then (segs ++ [(a, aa)], Returns (Some 2%Z))
        else (segs ++ [(a, aa); (bb, b)], Returns (Some 2%Z))
    end
  else if ((negb (aai =? -1) && (bbi =? -1))
           || ((aai =? -1) && negb (bbi =? -1)))%Z then
    (* only one side inside another segment *)
    if (-1 <? aai)%Z then
      match PyList.pop segs aai with
      | Raises e => (segs, Raises e)
      | Returns ((aa, _), segs) =>
          (remove_between aa bb segs ++ [(aa, bb)], Returns (Some 3%Z))
      end
    else
      match PyList.pop segs bbi with
      | Raises e => (segs, Raises e)
      | Returns ((_, bb), segs) =>
          (remove_between aa bb segs ++ [(aa, bb)], Returns (Some 3%Z))
      end
  else if (negb (aai =? bbi)%Z && split_if_inside) then
    (* both sides on different segments -> join those segments *)
    match PyList.pop segs aai with
    | Raises e => (segs, Raises e)
    | Returns ((a, _), segs) =>
        match PyList.pop segs (bbi - 1) with
        | Raises e => (segs, Raises e)
        | Returns ((_, b), segs) =>
            (remove_between aa bb segs ++ [(a, b)], Returns (Some 4%Z))
        end
    end
  else
    (* no branch: [move] stays unassigned *)
    (segs, Returns None).

(** The endpoints of the new range, sorted:
    [aa, bb = self.anchor, self.playback_pos], swapped [if aa > bb]. *)
Definition sorted_endpoints (anc playback_pos : Q) : Q * Q :=
  if Ts.ltb playback_pos anc then (playback_pos, anc) else (anc, playback_pos).

(** The end of [put_anchor]: line 764 sorts the list, then line 766
    formats [move] into the log line.  Reading [move] when no branch has
    assigned it raises [UnboundLocalError]; the list is sorted by then. *)
Definition finish_put (self : Timeline) (move : option Z)
  : Timeline * py unit :=
  let self := {| segments := sorted_by_start (segments self);
                 anchor := anchor self |} in
  match move with
  | Some _ => (self, Returns tt)
  | None => (self, Raises UnboundLocalError)
  end.

(** [GUI.put_anchor(split_if_inside)], with [self.playback_pos] passed as
    an argument.  The call changes the object in place, so it is modelled
    with the object it leaves behind next to its outcome: an exception does
    not undo the assignments made before it. *)
Definition put_anchor_call (split_if_inside : bool) (playback_pos : Q)
    (self : Timeline) : Timeline * py unit :=
  match anchor self with
  | None =>
      (* self.anchor = self.playback_pos; move = 0 *)
      finish_put {| segments := segments self; anchor := Some playback_pos |}
                 (Some 0%Z)
  | Some anc =>
      let '(aa, bb) := sorted_endpoints anc playback_pos in
      let '(aai, bbi) := locate aa bb (segments self) 0 (-1) (-1) in
      match put_moves split_if_inside aa bb aai bbi (segments self) with
      | (segs, Raises e) =>
          ({| segments := segs; anchor := Some anc |}, Raises e)
      | (segs, Returns move) =>
          (* self.anchor = None *)
          finish_put {| segments := segs; anchor := None |} move
      end
  end.

(** The outcome of a call as a value: the object when the call completed,
    the exception when it raised. *)
Definition completed (r : Timeline * py unit) : py Timeline :=
  match snd r with
  | Raises e => Raises e
  | Returns _ => Returns (fst r)
  end.

Definition put_anchor (split_if_inside : bool) (playback_pos : Q)
    (self : Timeline) : py Timeline :=
  completed (put_anchor_call split_if_inside playback_pos self).

(** The loop [for a, b in self.segments] of [del_anchor].  The list is
    changed while it is iterated: the iterator keeps a position [i] into the
    current list and stops once [i] is past its end.  Every round advances
    [i] and the list never grows, so [len(self.segments)] rounds suffice. *)
Fixpoint del_loop (fuel : nat) (closest_anchor : Q) (i : nat)
    (segs : list segment) (anc : option Q) : py (list segment * option Q) :=
  match nth_error segs i with
  | None => Returns (segs, anc)
  | Some (a, b) =>
      match fuel with
      | O => Raises OutOfFuel
      | S fuel =>
          if Ts.eqb a closest_anchor then
            segs <- PyList.remove seg_eqb (a, b) segs ;;
            del_loop fuel closest_anchor (S i) segs (Some b)
          else if Ts.eqb b closest_anchor then
            segs <- PyList.remove seg_eqb (a, b) segs ;;
            del_loop fuel closest_anchor (S i) segs (Some a)
          else del_loop fuel closest_anchor (S i) segs anc
      end
  end.

(** [self.closest_anchor == self.anchor] for a float [closest_anchor]. *)
Definition is_anchor (closest_anchor : Q) (anc : option Q) : bool :=
  match anc with
  | Some x => Ts.eqb closest_anchor x
  | None => false
  end.

(** [GUI.del_anchor], with [self.closest_anchor] passed as an argument. *)
Definition del_anchor (closest_anchor : Q) (self : Timeline) : py Timeline :=
  if is_anchor closest_anchor (anchor self) then
    Returns {| segments := segments self; anchor := None |}
  else
    p <- del_loop (length (segments self)) closest_anchor 0
           (segments self) (anchor self) ;;
    Returns {| segments := fst p; anchor := snd p |}.

(** A call of the editor. *)
Inductive call : Type :=
| PutAnchor (position : Q) (split_if_inside : bool)
| DelAnchor (target : Q).

Definition do_call (c : call) (self : Timeline) : py Timeline :=
  match c with
  | PutAnchor position split_if_inside =>
      put_anchor split_if_inside position self
  | DelAnchor target => del_anchor target self
  end.

(** A sequence of calls, first call first. *)
Fixpoint run (cs : list call) (self : Timeline) : py Timeline :=
  match cs with
  | [] => Returns self
  | c :: cs => self <- do_call c self ;; run cs self
  end.

(** The object a call leaves behind, whether it completed or raised.
    [del_anchor] never raises (see [del_anchor_returns]), so its second case
    is never taken. *)
Definition after_call (c : call) (self : Timeline) : Timeline :=
  match c with
  | PutAnchor position split_if_inside =>
      fst (put_anchor_call split_if_inside position self)
  | DelAnchor target =>
      match del_anchor target self with
      | Returns self => self
      | Raises _ => self
      end
  end.

(** The object after a sequence of calls made one after the other on it,
    each caller going on after a call that raised (as the event loop of the
    GUI does, and the [try] around [apply_state]). *)
Fixpoint after_calls (cs : list call) (self : Timeline) : Timeline :=
  match cs with
  | [] => self
  | c :: cs => after_calls cs (after_call c self)
  end.

(** *** Saved state *)

(** The part of [get_state]'s dictionary the editor owns. *)
Record saved_state : Type := mkState {
  state_segments : list segment;
  state_anchor : option Q
}.

Definition get_state (self : Timeline) : saved_state :=
  {| state_segments := segments self; state_anchor := anchor self |}.

(** The loop of [apply_state]:
    [put_anchor()] at [a], then [put_anchor(split_if_inside=False)] at [b]. *)
Fixpoint replay (saved : list segment) (self : Timeline) : py Timeline :=
  match saved with
  | [] => Returns self
  | (a, b) :: rest =>
      self <- put_anchor true a self ;;
      self <- put_anchor false b self ;;
      replay rest self
  end.

(** [GUI.apply_state]: replay the segments, then [self.anchor =
    state['anchor']]. *)
Definition apply_state (state : saved_state) (self : Timeline) : py Timeline :=
  self <- replay (state_segments state) self ;;
  Returns {| segments := segments self; anchor := state_anchor state |}.

(** [apply_state] with the object it leaves behind: an exception in one of
    the [put_anchor] calls leaves the loop and [apply_state] at once, so the
    remaining saved segments are not replayed and line 806 is not reached. *)
Fixpoint replay_call (saved : list segment) (self : Timeline)
  : Timeline * py unit :=
  match saved with
  | [] => (self, Returns tt)
  | (a, b) :: rest =>
      match put_anchor_call true a self with
      | (self, Raises e) => (self, Raises e)
      | (self, Returns _) =>
          match put_anchor_call false b self with
          | (self, Raises e) => (self, Raises e)
          | (self, Returns _) => replay_call rest self
          end
      end
  end.

Definition apply_state_call (state : saved_state) (self : Timeline)
  : Timeline * py unit :=
  match replay_call (state_segments state) self with
  | (self, Raises e) => (self, Raises e)
  | (self, Returns _) =>
      ({| segments := segments self; anchor := state_anchor state |},
       Returns tt)
  end.

(** ** Well-formed segment lists *)

(** [start <= end] *)
Definition valid (s : segment) : Prop := fst s <= snd s.

(** [s1] ends no later than [s2] starts (the two may abut). *)
Definition before (s1 s2 : segment) : Prop := snd s1 <= fst s2.

(** Two segments do not overlap: one of them ends no later than the other
    starts. *)
Definition disjoint (s1 s2 : segment) : Prop := before s1 s2 \/ before s2 s1.

(** Sorted ascending by start. *)
Definition ascending_by_start (l : list segment) : Prop :=
  StronglySorted (fun s1 s2 => fst s1 <= fst s2) l.

(** Pairwise non-overlapping. *)
Definition non_overlapping (l : list segment) : Prop :=
  ForallOrdPairs disjoint l.

(** The invariant of the editor: every segment has [start <= end] and every
    segment ends no later than each segment listed after it starts. *)
Definition chained (l : list segment) : Prop :=
  Forall valid l /\ StronglySorted before l.

(** What [sorted_by_start] needs of an unsorted list to produce a chain:
    of two segments, the earlier-listed one is before the other, or it is
    after it and starts strictly later (so that the stable sort swaps them). *)
Definition sortable (s1 s2 : segment) : Prop :=
  before s1 s2 \/ (before s2 s1 /\ fst s2 < fst s1).

(** *** What the classification loop finds *)

(** The loop of [put_anchor] seen for one endpoint [x]. *)
Fixpoint last_inside (x : Q) (segs : list segment) (i acc : Z) : Z :=
  match segs with
  | [] => acc
  | seg :: rest => last_inside x rest (i + 1) (if inside x seg then i else acc)
  end.

Definition outside (x : Q) (segs : list segment) : Prop :=
  Forall (fun s => inside x s = false) segs.

(** [k] is the last position of [segs] (counted from [i]) whose segment
    contains [x], or [acc] when there is none. *)
Definition located (x : Q) (segs : list segment) (i acc k : Z) : Prop :=
  (k = acc /\ outside x segs) \/
  (exists l1 s l2,
      segs = l1 ++ s :: l2 /\ k = (i + Z.of_nat (length l1))%Z /\
      inside x s = true /\ outside x l2).

(** A list the final [sorted] of [put_anchor] turns into a chain. *)
Definition good (l : list segment) : Prop :=
  Forall valid l /\ StronglySorted sortable l.

(** *** Segment boundaries *)

(** The start and end of every segment, in list order. *)
Definition boundaries (segs : list segment) : list Q :=
  flat_map (fun s => [fst s; snd s]) segs.

(** No two boundaries (at different places of the list) are equal. *)
Definition pairwise_distinct (l : list Q) : Prop :=
  ForallOrdPairs (fun x y => ~ x == y) l.

(** Neither boundary of [s] equals [t]. *)
Definition unmatched (t : Q) (s : segment) : Prop :=
  ~ fst s == t /\ ~ snd s == t.

(** Segments with [start < end] of which each ends strictly before the next
    starts (no two touch). *)
Definition separated (l : list segment) : Prop :=
  Forall (fun s => fst s < snd s) l /\
  StronglySorted (fun s1 s2 => snd s1 < fst s2) l.

(** ** Inverter: [GUI.get_inversed_segments] *)

Module Inverter.

Section Walk.

(** [self.pts], [self.playback_len] and [self.player.fps]. *)
Variables (pts : list Q) (playback_len fps : Q).

(** [self.pts and closest(t, self.pts) == x], read as a truth value; [x] is
    [None] when [self.pts] has no such element (the source then never
    evaluates the comparison, as [self.pts] is empty). *)
Definition closest_is (t : Q) (x : option Q) : bool :=
  match pts with
  | [] => false
  | _ =>
      match Finder.closest t pts None, x with
      | Some c, Some x => Ts.eqb c x
      | _, _ => false
      end
  end.

(** The body of the loop [for i, t in enumerate(anchors)], for the element
    [t] at index [i] of a list of length [n]; the state is the local list
    [segments] and [prev]. *)
Definition walk_step (n i : nat) (t : Q) (st : list segment * option Q)
  : list segment * option Q :=
  let '(segments, prev) := st in
  if Nat.even i then
    let prev := match prev with None => 0 | Some p => p end in
    let first_frame := Ts.eqb t 0 || closest_is t (hd_error pts) in
    if first_frame then (segments, Some prev)
    else (segments ++ [(prev, t)], Some prev)
  else
    if (i =? n - 1)%nat then
      let last_frame :=
        Ts.ltb (playback_len - t) (1 / fps)
        || closest_is t (hd_error (rev pts)) in
      if last_frame then (segments, Some t)
      else (segments ++ [(t, playback_len)], Some t)
    else (segments, Some t).

Fixpoint walk (n i : nat) (anchors : list Q) (st : list segment * option Q)
  : list segment * option Q :=
  match anchors with
  | [] => st
  | t :: rest => walk n (S i) rest (walk_step n i t st)
  end.

(** The value of the local variable [segments] when the loop of
    [get_inversed_segments] has finished. *)
Definition inversed_local (segs : list segment) : list segment :=
  let anchors := boundaries segs in
  fst (walk (length anchors) 0 anchors ([], None)).

(** [GUI.get_inversed_segments]: the function body ends with the loop; it
    has no [return] statement, so the call evaluates to Python's [None]
    whatever the local list holds. *)
Definition get_inversed_segments (segs : list segment)
  : option (list segment) :=
  let segments := inversed_local segs in
  None.

End Walk.

End Inverter.

(** ** TimestampIndexBuilder *)

Module Index.

(** [sorted(set(l))]: one representative of every value, ascending.  A set
    keeps the element inserted first among equal ones. *)
Fixpoint set_insert (x : Q) (l : list Q) : list Q :=
  match l with
  | [] => [x]
  | y :: r =>
      if Ts.ltb x y then x :: l
      else if Ts.eqb x y then l
      else y :: set_insert x r
  end.

Definition sorted_set (l : list Q) : list Q :=
  fold_left (fun acc x => set_insert x acc) l [].

(** *** Packet mode *)

(** A line of [ffprobe -show_packets] output as the loop tells them apart. *)
Inductive packet_line : Type :=
| KeyFlag
    (** a line containing [b'=K'] *)
| TsTime (is_pts : bool) (v : option Q)
    (** [?ts_time=...]: starts with [b'p'] or not; [v] is [float(...)],
        [None] when that raises [ValueError] *)
| OtherPacketLine.

(** [pts], [dts], [ipts], [packetn] *)
Definition packet_state : Type := (list Q * list Q * list Q * Z)%type.

(** One round of the [while True] loop reading the packets. *)
Definition packet_step (st : packet_state) (line : packet_line)
  : packet_state :=
  let '(pts, dts, ipts, packetn) := st in
  match line with
  | KeyFlag =>
      (* prefer pts *)
      match PyList.getitem pts (packetn - 1) with
      | Returns v => (pts, dts, ipts ++ [v], packetn)
      | Raises _ =>
          match PyList.getitem dts (packetn - 1) with
          | Returns v => (pts, dts, ipts ++ [v], packetn)
          | Raises _ => st
          end
      end
  | TsTime is_pts v =>
      let packetn := if is_pts then (packetn + 1)%Z else packetn in
      match v with
      | Some v =>
          if Ts.leb 0 v then
            if is_pts then (pts ++ [v], dts, ipts, packetn)
            else (pts, dts ++ [v], ipts, packetn)
          else (pts, dts, ipts, packetn)
      | None => (pts, dts, ipts, packetn)
      end
  | OtherPacketLine => st
  end.

Definition read_packets (lines : list packet_line) : packet_state :=
  fold_left packet_step lines ([], [], [], 0%Z).

(** [ipts[ipts.index(v)] = t] inside [try ... except Exception: pass]. *)
Fixpoint replace_first (v t : Q) (ipts : list Q) : list Q :=
  match ipts with
  | [] => []
  | x :: r => if Ts.eqb x v then t :: r else x :: replace_first v t r
  end.

(** [for v in rm: q.remove(v); pts.remove(v); ...] *)
Fixpoint cleanup_rm (rm : list Q) (t : Q) (q pts ipts : list Q)
  : py (list Q * list Q * list Q) :=
  match rm with
  | [] => Returns (q, pts, ipts)
  | v :: rm =>
      q <- PyList.remove Ts.eqb v q ;;
      pts <- PyList.remove Ts.eqb v pts ;;
      cleanup_rm rm t q pts (replace_first v t ipts)
  end.

(** The loop under [# filter out pts of incomplete packets]:
    [for t in sorted(set(pts))].  [q] is the [deque(maxlen=10)]; the source
    has no statement that appends to it. *)
Fixpoint cleanup (ts : list Q) (q pts ipts : list Q) : py (list Q * list Q) :=
  match ts with
  | [] => Returns (pts, ipts)
  | t :: ts =>
      let rm := filter (fun v => Ts.leb (Ts.abs (v - t)) 0.002) q in
      st <- cleanup_rm rm t q pts ipts ;;
      let '(q, pts, ipts) := st in
      cleanup ts q pts ipts
  end.

(** [GUI._load_timestamps_from_packets] on the lines ffprobe printed;
    [failed] is the result of [self._wait(proc, ...)].  The value is Python's
    [None] or the pair [(pts, ipts)]. *)
Definition load_timestamps_from_packets (failed : bool)
    (lines : list packet_line) : py (option (list Q * list Q)) :=
  let '(pts, dts, ipts, _) := read_packets lines in
  if failed then Returns None
  else
    let pts := sorted_set (pts ++ dts) in
    let ipts := sorted_set ipts in
    st <- cleanup (sorted_set pts) [] pts ipts ;;
    let '(pts, ipts) := st in
    match pts with
    | [] => Returns None
    | _ => Returns (Some (pts, ipts))
    end.

(** *** Frame mode *)

(** A line of [ffprobe -show_frames] output as the loop tells them apart. *)
Inductive frame_line : Type :=
| BestEffortTime (v : option Q)
    (** contains [b'best_effort_timestamp_time=']; [v] is [float(...)],
        [None] when that raises *)
| PictTypeI
    (** the line [b'pict_type=I\n'] *)
| OtherFrameLine.

(** The [while True] loop reading the frames. *)
Fixpoint read_frames (lines : list frame_line) (pts ipts : list Q)
  : py (list Q * list Q) :=
  match lines with
  | [] => Returns (pts, ipts)
  | BestEffortTime (Some v) :: rest => read_frames rest (pts ++ [v]) ipts
  | BestEffortTime None :: rest => read_frames rest pts ipts
  | PictTypeI :: rest =>
      v <- PyList.getitem pts (-1) ;;
      read_frames rest pts (ipts ++ [v])
  | OtherFrameLine :: rest => read_frames rest pts ipts
  end.

(** [GUI._load_timestamps_from_frames]; the progress messages are left
    out. *)
Definition load_timestamps_from_frames (failed : bool)
    (lines : list frame_line) : py (option (list Q * list Q)) :=
  st <- read_frames lines [] [] ;;
  let '(pts, ipts) := st in
  if failed then Returns None
  else
    match pts with
    | [] => Returns None
    | _ => Returns (Some (pts, ipts))
    end.

(** A record of the frame stream: its timestamp and whether its picture
    type is [I]. *)
Record frame : Type := mkFrame {
  timestamp : Q;
  is_I : bool
}.

(** The lines ffprobe prints for a frame, in its order: the timestamp, then
    the picture type. *)
Definition frame_lines (f : frame) : list frame_line :=
  [BestEffortTime (Some (timestamp f));
   if is_I f then PictTypeI else OtherFrameLine].

End Index.

(** Strictly ascending, hence duplicate-free. *)
Definition strictly_ascending (l : list Q) : Prop :=
  StronglySorted Qlt l.

(** ** Navigation: [GUI.to_next_anchor], [GUI.to_next_keyframe] *)

(** [sorted(anchors)] on a list of floats. *)
Fixpoint insert_ts (x : Q) (l : list Q) : list Q :=
  match l with
  | [] => [x]
  | y :: r => if Ts.leb x y then x :: l else y :: insert_ts x r
  end.

Fixpoint sorted_ts (l : list Q) : list Q :=
  match l with
  | [] => []
  | x :: r => insert_ts x (sorted_ts r)
  end.

(** The list [anchors] of [to_next_anchor]: the segment boundaries in list
    order; with an anchor pending, the anchor is appended and the list
    sorted. *)
Definition jump_anchors (self : Timeline) : list Q :=
  let anchors := boundaries (segments self) in
  match anchor self with
  | Some a => sorted_ts (anchors ++ [a])
  | None => anchors
  end.

(** [GUI.to_next_anchor(backwards)].  The result is the position handed to
    [self.player.seek], [None] when the player is not asked to seek. *)
Definition to_next_anchor (backwards : bool) (playback_pos : Q)
    (self : Timeline) : option Q :=
  let anchors := jump_anchors self in
  let found := Finder.sidesi playback_pos 0 None anchors in
  match (if backwards then fst found else snd found) with
  | Some i => nth_error anchors i
  | None => None
  end.


(** ** The highlighted anchor: [GUI.seekbar_paint_event] *)

(** One of the two tests of the loop body:
    [diff = abs(x - self.playback_pos)], then
    [if diff < closest_anchor_diff: ...]. *)
Definition nearer (playback_pos x : Q) (st : option Q * Q) : option Q * Q :=
  let diff := Ts.abs (x - playback_pos) in
  if Ts.ltb diff (snd st) then (Some x, diff) else st.

(** The loop [for a, b in self.segments] of [seekbar_paint_event], on the
    pair [(closest_anchor, closest_anchor_diff)]. *)
Fixpoint paint_segments (playback_pos : Q) (segs : list segment)
    (st : option Q * Q) : option Q * Q :=
  match segs with
  | [] => st
  | (a, b) :: rest =>
      paint_segments playback_pos rest
        (nearer playback_pos b (nearer playback_pos a st))
  end.

(** The value [seekbar_paint_event] stores in [self.closest_anchor]. *)
Definition painted_closest_anchor (playback_pos playback_len : Q)
    (self : Timeline) : option Q :=
  let closest_anchor :=
    fst (paint_segments playback_pos (segments self) (None, playback_len)) in
  match anchor self with
  | Some a => Some a
  | None => closest_anchor
  end.

(** The key X: [del_anchor] with the [closest_anchor] of the last repaint.
    When that is [None], [del_anchor] changes nothing: [None == self.anchor]
    holds only for an anchor that is already [None], and no boundary of a
    segment equals [None]. *)
Definition press_x (playback_pos playback_len : Q) (self : Timeline)
  : py Timeline :=
  match painted_closest_anchor playback_pos playback_len self with
  | Some t => del_anchor t self
  | None => Returns self
  end.

(** Ascending, possibly with repeated values. *)
Definition ascending (l : list Q) : Prop := StronglySorted Qle l.

(** ** Notions used to state further properties *)

(** [l1] is [l2] with some elements left out, the others in their order. *)
Inductive subseq {A : Type} : list A -> list A -> Prop :=
| subseq_nil : subseq [] []
| subseq_skip (x : A) (l1 l2 : list A) : subseq l1 l2 -> subseq l1 (x :: l2)
| subseq_keep (x : A) (l1 l2 : list A) :
    subseq l1 l2 -> subseq (x :: l1) (x :: l2).

(** The positions handed to [put_anchor] by a sequence of calls. *)
Fixpoint put_positions (cs : list call) : list Q :=
  match cs with
  | [] => []
  | PutAnchor position _ :: cs => position :: put_positions cs
  | DelAnchor _ :: cs => put_positions cs
  end.

(** Both boundaries of [s] satisfy [K]. *)
Definition bounded_by (K : Q -> Prop) (s : segment) : Prop :=
  K (fst s) /\ K (snd s).

(** The calls [apply_state] makes for the saved segments. *)
Definition replay_calls (saved : list segment) : list call :=
  flat_map (fun s => [PutAnchor (fst s) true; PutAnchor (snd s) false]) saved.

(** The point [x] lies in some segment of the list, boundaries included. *)
Definition covered (x : Q) (segs : list segment) : Prop :=
  exists s, In s segs /\ fst s <= x <= snd s.

(** The point [x] lies strictly inside some segment of the list. *)
Definition strictly_covered (x : Q) (segs : list segment) : Prop :=
  exists s, In s segs /\ fst s < x < snd s.

(** The values [to_next_anchor] can jump to: the segment boundaries and the
    pending anchor. *)
Definition jump_target (self : Timeline) (w : Q) : Prop :=
  In w (boundaries (segments self)) \/ anchor self = Some w.

(** The components of the state of the packet loop. *)
Definition st_pts (st : Index.packet_state) : list Q := fst (fst (fst st)).
Definition st_dts (st : Index.packet_state) : list Q := snd (fst (fst st)).
Definition st_ipts (st : Index.packet_state) : list Q := snd (fst st).

(** What the packet loop keeps true of its lists: no negative timestamp is
    stored, and every keyframe timestamp was taken from [pts] or [dts]. *)
Definition packets_inv (st : Index.packet_state) : Prop :=
  Forall (Qle 0) (st_pts st) /\
  Forall (Qle 0) (st_dts st) /\
  Forall (fun k => In k (st_pts st) \/ In k (st_dts st)) (st_ipts st).

(** The timestamps of a frame stream that [float] parses, in stream order. *)
Definition parsed_timestamps (lines : list Index.frame_line) : list Q :=
  flat_map (fun line => match line with
                        | Index.BestEffortTime (Some v) => [v]
                        | _ => []
                        end) lines.

(** No line of the list carries a timestamp that [float] parses. *)
Definition no_timestamp (lines : list Index.frame_line) : Prop :=
  parsed_timestamps lines = [].

(** Every [pict_type=I] line of the stream comes after a timestamp that was
    parsed since the previous [pict_type=I] line (since the start of the
    stream, for the first one).  [fresh] tells whether a timestamp has been
    parsed since then. *)
Fixpoint keyframes_fresh (lines : list Index.frame_line) (fresh : bool)
  : bool :=
  match lines with
  | [] => true
  | Index.BestEffortTime (Some _) :: rest => keyframes_fresh rest true
  | Index.PictTypeI :: rest => fresh && keyframes_fresh rest false
  | _ :: rest => keyframes_fresh rest fresh
  end.

(** ** The snapping step of [GUI.adjust_segements] *)

(** [closest(x, self.pts, max_diff=frame_duration) or x] (lines 859, 860):
    [None] and the timestamp [0.0] are falsy.  [frame_duration] is the value
    of [1/self.player.fps] as Python computed it. *)
Definition snap (x frame_duration : Q) (pts : list Q) : Q :=
  match Finder.closest x pts (Some frame_duration) with
  | Some c => if Ts.eqb c 0 then x else c
  | None => x
  end.

(** ** Index construction: the body of [GUI.load_ffmpeg_frames_info] *)

(** The [else] branch of [load_ffmpeg_frames_info] (no cached index): packet
    mode first, frame mode only when packet mode returned nothing; the value
    is [(self.pts, self.ipts)] afterwards, which stay [[]] when both modes
    returned nothing. *)
Definition build_index (packets_failed : bool)
    (packet_lines : list Index.packet_line) (frames_failed : bool)
    (frame_lines : list Index.frame_line) : py (list Q * list Q) :=
  ret <- Index.load_timestamps_from_packets packets_failed packet_lines ;;
  match ret with
  | Some index => Returns index
  | None =>
      ret <- Index.load_timestamps_from_frames frames_failed frame_lines ;;
      match ret with
      | Some index => Returns index
      | None => Returns ([], [])
      end
  end.

(** * Part II: properties *)

(** ** Comparisons *)

Lemma Ts_leb_spec (x y : Q) : reflect (x <= y) (Ts.leb x y).
Proof.
  unfold Ts.leb. destruct (Qle_bool x y) eqn:E; constructor.
  - now apply Qle_bool_iff.
  - intro H. apply Qle_bool_iff in H. congruence.
Qed.

Lemma Ts_ltb_spec (x y : Q) : reflect (x < y) (Ts.ltb x y).
Proof.
  unfold Ts.ltb. destruct (Qle_bool y x) eqn:E; constructor; simpl.
  - apply Qle_bool_iff in E. lra.
  - apply Qnot_le_lt. intro H. apply Qle_bool_iff in H. congruence.
Qed.

Lemma Ts_eqb_spec (x y : Q) : reflect (x == y) (Ts.eqb x y).
Proof.
  unfold Ts.eqb. destruct (Qeq_bool x y) eqn:E; constructor.
  - now apply Qeq_bool_iff.
  - intro H. apply Qeq_bool_iff in H. congruence.
Qed.

(** Turn every boolean comparison in sight into the proposition it decides. *)
Ltac cmp :=
  repeat match goal with
  | |- context [Ts.leb ?x ?y] => destruct (Ts_leb_spec x y)
  | |- context [Ts.ltb ?x ?y] => destruct (Ts_ltb_spec x y)
  | |- context [Ts.eqb ?x ?y] => destruct (Ts_eqb_spec x y)
  | H : context [Ts.leb ?x ?y] |- _ => destruct (Ts_leb_spec x y)
  | H : context [Ts.ltb ?x ?y] |- _ => destruct (Ts_ltb_spec x y)
  | H : context [Ts.eqb ?x ?y] |- _ => destruct (Ts_eqb_spec x y)
  end.

(** ** NearestNeighborFinder *)

(** *** Facts about the scans *)

Lemma scan_right_found t min_diff max_diff rest ri j :
  Finder.scan_right t min_diff max_diff rest ri = Some j ->
  (ri <= j < ri + length rest)%nat /\
  Finder.qualifies min_diff (nth (j - ri) rest 0 - t) = true.
Proof.
  revert ri. induction rest as [|e rest IH]; intros ri H; simpl in H.
  - discriminate.
  - destruct (Finder.qualifies min_diff (e - t)) eqn:Eq.
    + destruct (Finder.too_far max_diff (e - t)).
      * apply IH in H. destruct H as [Hr Hq]. simpl. split; [lia|].
        replace (j - ri)%nat with (S (j - S ri)) by lia. exact Hq.
      * injection H as <-. simpl. split; [lia|].
        now rewrite Nat.sub_diag.
    + apply IH in H. destruct H as [Hr Hq]. simpl. split; [lia|].
      replace (j - ri)%nat with (S (j - S ri)) by lia. exact Hq.
Qed.

Lemma scan_left_found t min_diff max_diff ls n i :
  Finder.scan_left t min_diff max_diff ls n = Some i ->
  (i < n)%nat /\ Finder.qualifies min_diff (t - nth i ls 0) = true.
Proof.
  induction n as [|li IH]; intros H; simpl in H.
  - discriminate.
  - destruct (Finder.qualifies min_diff (t - nth li ls 0)) eqn:Eq.
    + destruct (Finder.too_far max_diff (t - nth li ls 0)).
      * apply IH in H. destruct H. split; [lia|assumption].
      * injection H as <-. split; [lia|assumption].
    + apply IH in H. destruct H. split; [lia|assumption].
Qed.

Lemma first_ge_bound t ls i k :
  Finder.first_ge t ls i = Some k -> (i <= k < i + length ls)%nat.
Proof.
  revert i. induction ls as [|e ls IH]; intros i H; simpl in H.
  - discriminate.
  - destruct (Ts.leb t e).
    + injection H as <-. simpl. lia.
    + apply IH in H. simpl. lia.
Qed.

Lemma nth_skipn_shift (ls : list Q) i j :
  (i <= j)%nat -> nth (j - i) (skipn i ls) 0 = nth j ls 0.
Proof.
  revert ls j. induction i as [|i IH]; intros ls j Hij.
  - now rewrite Nat.sub_0_r.
  - destruct ls as [|x ls].
    + simpl. now destruct (j - S i)%nat, j.
    + destruct j as [|j]; [lia|]. simpl. apply IH. lia.
Qed.

(** Every index [sidesi] returns is a valid position of the sequence; the
    left one passed [qualifies] on [t - ls[i]], the right one on
    [ls[j] - t]. *)
Lemma sidesi_left t min_diff max_diff ls i :
  fst (Finder.sidesi t min_diff max_diff ls) = Some i ->
  (i < length ls)%nat /\ Finder.qualifies min_diff (t - nth i ls 0) = true.
Proof.
  unfold Finder.sidesi.
  destruct (Finder.first_ge t ls 0) as [k|] eqn:Ek; cbn [fst].
  - intros H. apply scan_left_found in H. apply first_ge_bound in Ek.
    destruct H. split; [lia|assumption].
  - destruct ls as [|x ls]; cbn [fst]; [discriminate|].
    intros H. apply scan_left_found in H. exact H.
Qed.

Lemma sidesi_right t min_diff max_diff ls j :
  snd (Finder.sidesi t min_diff max_diff ls) = Some j ->
  (j < length ls)%nat /\ Finder.qualifies min_diff (nth j ls 0 - t) = true.
Proof.
  unfold Finder.sidesi.
  destruct (Finder.first_ge t ls 0) as [k|] eqn:Ek; cbn [snd].
  - intros H. apply scan_right_found in H. apply first_ge_bound in Ek.
    destruct H as [Hr Hq]. rewrite length_skipn in Hr.
    rewrite nth_skipn_shift in Hq by lia. split; [lia|assumption].
  - destruct ls; cbn [snd]; discriminate.
Qed.

(** C7. With [min_diff = 0] (and any [max_diff]), an index returned by
    [sidesi] on the left designates an element strictly below the target and
    an index returned on the right an element strictly above it, so an
    element equal to the target is never returned; the empty sequence gives
    [(None, None)]; and [sidesi(5, [3,4,5,6])] is [(1, 3)]. *)
Theorem sidesi_strict_neighbours :
  forall (t : Q) (max_diff : option Q) (ls : list Q),
    (forall i, fst (Finder.sidesi t 0 max_diff ls) = Some i ->
               exists e, nth_error ls i = Some e /\ e < t /\ ~ e == t) /\
    (forall j, snd (Finder.sidesi t 0 max_diff ls) = Some j ->
               exists e, nth_error ls j = Some e /\ t < e /\ ~ e == t) /\
    Finder.sidesi t 0 max_diff [] = (None, None) /\
    Finder.sidesi 5 0 None [3; 4; 5; 6] = (Some 1%nat, Some 3%nat).
Proof.
  intros t max_diff ls. repeat split.
  - intros i H. apply sidesi_left in H. destruct H as [Hi Hq].
    exists (nth i ls 0). split; [now apply nth_error_nth'|].
    unfold Finder.qualifies in Hq. apply andb_true_iff in Hq.
    destruct Hq as [Hne Hle]. cmp; simpl in *; try discriminate.
    split; lra.
  - intros j H. apply sidesi_right in H. destruct H as [Hj Hq].
    exists (nth j ls 0). split; [now apply nth_error_nth'|].
    unfold Finder.qualifies in Hq. apply andb_true_iff in Hq.
    destruct Hq as [Hne Hle]. cmp; simpl in *; try discriminate.
    split; lra.
Qed.

Lemma sidesi_strict_neighbours_witness :
  (exists e, nth_error [3; 4; 5; 6] 1 = Some e /\ e < 5 /\ ~ e == 5) /\
  (exists e, nth_error [3; 4; 5; 6] 3 = Some e /\ 5 < e /\ ~ e == 5).
Proof.
  split.
  - apply (proj1 (sidesi_strict_neighbours 5 None [3; 4; 5; 6]) 1%nat).
    reflexivity.
  - apply (proj1 (proj2 (sidesi_strict_neighbours 5 None [3; 4; 5; 6]))
             3%nat).
    reflexivity.
Defined.

(** C10. Whenever [sidesi] returns index 0 on a side, [sides] returns
    [None] on that side, although the sequence has an element at index 0;
    e.g. [sidesi(5, [3, 6]) = (0, 1)] while [sides(5, [3, 6]) = (None, 6)]. *)
Theorem sides_drops_index_zero :
  forall (t min_diff : Q) (max_diff : option Q) (ls : list Q),
    (fst (Finder.sidesi t min_diff max_diff ls) = Some 0%nat ->
     fst (Finder.sides t min_diff max_diff ls) = None /\
     exists e, nth_error ls 0 = Some e) /\
    (snd (Finder.sidesi t min_diff max_diff ls) = Some 0%nat ->
     snd (Finder.sides t min_diff max_diff ls) = None /\
     exists e, nth_error ls 0 = Some e) /\
    Finder.sidesi 5 0 None [3; 6] = (Some 0%nat, Some 1%nat) /\
    Finder.sides 5 0 None [3; 6] = (None, Some 6).
Proof.
  intros t min_diff max_diff ls. repeat split.
  - unfold Finder.sides.
    destruct (Finder.sidesi t min_diff max_diff ls) as [ai bi].
    simpl in H. subst ai. reflexivity.
  - apply sidesi_left in H. destruct H as [Hi _].
    exists (nth 0 ls 0). now apply nth_error_nth'.
  - unfold Finder.sides.
    destruct (Finder.sidesi t min_diff max_diff ls) as [ai bi].
    simpl in H. subst bi. reflexivity.
  - apply sidesi_right in H. destruct H as [Hj _].
    exists (nth 0 ls 0). now apply nth_error_nth'.
Qed.

Lemma sides_drops_index_zero_witness :
  fst (Finder.sides 5 0 None [3; 6]) = None /\
  exists e, nth_error [3; 6] 0 = Some e.
Proof.
  apply (proj1 (sides_drops_index_zero 5 0 None [3; 6])).
  reflexivity.
Defined.

(** ** SegmentEditor *)

(** *** The examples of the four moves *)

Example case1 :
  run [PutAnchor 10 true; PutAnchor 20 true] empty_timeline
  = Returns {| segments := [(10, 20)]; anchor := None |}.
Proof. reflexivity. Qed.

Example case2 :
  run [PutAnchor 12 true; PutAnchor 15 true]
      {| segments := [(10, 20)]; anchor := None |}
  = Returns {| segments := [(10, 12); (15, 20)]; anchor := None |}.
Proof. reflexivity. Qed.

Example case3 :
  run [PutAnchor 18 true; PutAnchor 25 true]
      {| segments := [(10, 20)]; anchor := None |}
  = Returns {| segments := [(10, 25)]; anchor := None |}.
Proof. reflexivity. Qed.

Example case4 :
  run [PutAnchor 15 true; PutAnchor 35 true]
      {| segments := [(10, 20); (30, 40)]; anchor := None |}
  = Returns {| segments := [(10, 40)]; anchor := None |}.
Proof. reflexivity. Qed.

Section StronglySortedFacts.

Context {A : Type} (R : A -> A -> Prop).

Lemma StronglySorted_app_iff (l1 l2 : list A) :
  StronglySorted R (l1 ++ l2) <->
  StronglySorted R l1 /\ StronglySorted R l2 /\
  (forall x y, In x l1 -> In y l2 -> R x y).
Proof.
  induction l1 as [|a l1 IH]; simpl.
  - split.
    + intros H. repeat split; [constructor|assumption|contradiction].
    + intros (_ & H & _). exact H.
  - split.
    + intros H. apply StronglySorted_inv in H. destruct H as [Hs Hf].
      apply IH in Hs. destruct Hs as (H1 & H2 & H12).
      rewrite Forall_app in Hf. destruct Hf as [Hf1 Hf2].
      repeat split; [now constructor|assumption|].
      intros x y [<-|Hx] Hy.
      * rewrite Forall_forall in Hf2. now apply Hf2.
      * now apply H12.
    + intros (H1 & H2 & H12).
      apply StronglySorted_inv in H1. destruct H1 as [Hs Hf].
      constructor.
      * apply IH. repeat split; [assumption|assumption|].
        intros x y Hx Hy. apply H12; [now right|assumption].
      * rewrite Forall_app. split; [assumption|].
        rewrite Forall_forall. intros y Hy. apply H12; [now left|assumption].
Qed.

Lemma StronglySorted_weaken (R' : A -> A -> Prop) (l : list A) :
  (forall x y, In x l -> In y l -> R x y -> R' x y) ->
  StronglySorted R l -> StronglySorted R' l.
Proof.
  induction l as [|a l IH]; intros Himp H; [constructor|].
  apply StronglySorted_inv in H. destruct H as [Hs Hf].
  constructor.
  - apply IH; [|assumption].
    intros x y Hx Hy. apply Himp; now right.
  - rewrite Forall_forall in *. intros y Hy.
    apply Himp; [now left|now right|now apply Hf].
Qed.

Lemma StronglySorted_filter (f : A -> bool) (l : list A) :
  StronglySorted R l -> StronglySorted R (filter f l).
Proof.
  induction 1 as [|a l Hs IH Hf]; simpl; [constructor|].
  destruct (f a); [|assumption].
  constructor; [assumption|].
  rewrite Forall_forall in *. intros y Hy.
  apply filter_In in Hy. now apply Hf.
Qed.

Lemma StronglySorted_pairs (l : list A) :
  StronglySorted R l -> ForallOrdPairs R l.
Proof.
  induction 1; constructor; assumption.
Qed.

End StronglySortedFacts.

(** *** The stable sort on chains *)

Lemma insert_by_start_In (x y : segment) (l : list segment) :
  In y (insert_by_start x l) <-> y = x \/ In y l.
Proof.
  induction l as [|z l IH]; simpl.
  - intuition.
  - destruct (Ts.leb (fst x) (fst z)); simpl; [intuition|].
    rewrite IH. intuition.
Qed.

Lemma sorted_by_start_In (y : segment) (l : list segment) :
  In y (sorted_by_start l) <-> In y l.
Proof.
  induction l as [|x l IH]; simpl; [tauto|].
  rewrite insert_by_start_In, IH. intuition.
Qed.

Lemma insert_by_start_chain (x : segment) (l : list segment) :
  valid x -> Forall valid l -> StronglySorted before l ->
  Forall (sortable x) l ->
  StronglySorted before (insert_by_start x l).
Proof.
  intros Hx Hv Hs Hc. induction Hs as [|z l Hs IH Hf]; simpl.
  - repeat constructor.
  - apply Forall_inv in Hv as Hz. apply Forall_inv_tail in Hv.
    apply Forall_inv in Hc as Hxz. apply Forall_inv_tail in Hc.
    unfold sortable, valid, before in *.
    destruct (Ts_leb_spec (fst x) (fst z)) as [Hle|Hgt].
    + constructor; [now constructor|].
      constructor; [cbv beta; lra|].
      rewrite Forall_forall in *. intros y Hy.
      specialize (Hf y Hy). cbv beta in *. lra.
    + constructor; [now apply IH|].
      rewrite Forall_forall in *. intros y Hy.
      apply -> insert_by_start_In in Hy. destruct Hy as [->|Hy].
      * cbv beta. lra.
      * now apply Hf.
Qed.

Lemma sorted_by_start_chain (l : list segment) :
  Forall valid l -> StronglySorted sortable l ->
  chained (sorted_by_start l).
Proof.
  intros Hv Hs. split.
  - rewrite Forall_forall in *. intros y Hy.
    apply -> sorted_by_start_In in Hy. now apply Hv.
  - induction Hs as [|x l Hs IH Hf]; simpl; [constructor|].
    apply Forall_inv in Hv as Hx. apply Forall_inv_tail in Hv.
    apply insert_by_start_chain; try assumption.
    + rewrite Forall_forall in *. intros y Hy.
      apply -> sorted_by_start_In in Hy. now apply Hv.
    + now apply IH.
    + rewrite Forall_forall in *. intros y Hy.
      apply -> sorted_by_start_In in Hy. now apply Hf.
Qed.

(** On a list that is already ascending by start the sort changes nothing. *)
Lemma sorted_by_start_id (l : list segment) :
  ascending_by_start l -> sorted_by_start l = l.
Proof.
  induction 1 as [|x l Hs IH Hf]; simpl; [reflexivity|].
  rewrite IH. destruct l as [|z l]; simpl; [reflexivity|].
  apply Forall_inv in Hf.
  destruct (Ts_leb_spec (fst x) (fst z)); [reflexivity|contradiction].
Qed.

Lemma chained_ascending (l : list segment) :
  chained l -> ascending_by_start l.
Proof.
  intros [Hv Hs]. unfold ascending_by_start.
  apply StronglySorted_weaken with (R := before); [|assumption].
  intros x y Hx Hy Hb. rewrite Forall_forall in Hv.
  specialize (Hv x Hx). unfold valid, before in *. lra.
Qed.

Lemma chained_non_overlapping (l : list segment) :
  chained l -> non_overlapping l.
Proof.
  intros [_ Hs]. apply StronglySorted_pairs.
  apply StronglySorted_weaken with (R := before); [|assumption].
  intros x y _ _ Hb. now left.
Qed.

Lemma chained_sortable (l : list segment) :
  chained l -> StronglySorted sortable l.
Proof.
  intros [_ Hs].
  apply StronglySorted_weaken with (R := before); [|assumption].
  intros x y _ _ Hb. now left.
Qed.

Lemma chained_sorted (l : list segment) :
  chained l -> chained (sorted_by_start l).
Proof.
  intros H. apply sorted_by_start_chain; [apply H|now apply chained_sortable].
Qed.

(** *** Lists cut at a position *)

Section Cut.

Context {A : Type}.

Lemma cut_here (l1 : list A) (s : A) (l2 : list A) :
  nth_error (l1 ++ s :: l2) (length l1) = Some s /\
  firstn (length l1) (l1 ++ s :: l2) = l1 /\
  skipn (S (length l1)) (l1 ++ s :: l2) = l2.
Proof.
  induction l1 as [|x l1 (IH1 & IH2 & IH3)]; simpl.
  - now repeat split.
  - repeat split; [assumption|now f_equal|assumption].
Qed.

Lemma pop_at (l1 : list A) (s : A) (l2 : list A) :
  PyList.pop (l1 ++ s :: l2) (Z.of_nat (length l1)) = Returns (s, l1 ++ l2).
Proof.
  unfold PyList.pop. rewrite length_app. simpl length.
  destruct (Z.ltb_spec (Z.of_nat (length l1)) 0) as [?|_]; [lia|].
  destruct (Z.ltb_spec (Z.of_nat (length l1)) 0) as [?|_]; [lia|].
  destruct (Z.leb_spec (Z.of_nat (length l1 + S (length l2)))
              (Z.of_nat (length l1))) as [?|_]; [lia|].
  cbn [orb]. rewrite Nat2Z.id.
  destruct (cut_here l1 s l2) as (-> & -> & ->). reflexivity.
Qed.

Lemma length_cut_pred (l1 : list A) (s : A) (l2 : list A) :
  (Z.of_nat (length (l1 ++ s :: l2)) - 1)%Z = Z.of_nat (length (l1 ++ l2)).
Proof. rewrite !length_app. simpl length. lia. Qed.

Lemma cut_unique (l1 m1 : list A) (s r : A) (l2 m2 : list A) :
  l1 ++ s :: l2 = m1 ++ r :: m2 -> length l1 = length m1 ->
  l1 = m1 /\ s = r /\ l2 = m2.
Proof.
  revert m1. induction l1 as [|x l1 IH]; intros [|y m1] E Hlen;
    simpl in *; try discriminate.
  - injection E as -> ->. now repeat split.
  - injection E as -> E. apply IH in E; [|lia].
    destruct E as (-> & -> & ->). now repeat split.
Qed.

Lemma cut_earlier (l1 m1 : list A) (s r : A) (l2 m2 : list A) :
  l1 ++ s :: l2 = m1 ++ r :: m2 -> (length l1 < length m1)%nat ->
  exists mid, m1 = l1 ++ s :: mid /\ l2 = mid ++ r :: m2.
Proof.
  revert m1. induction l1 as [|x l1 IH]; intros [|y m1] E Hlen;
    simpl in *; try lia.
  - injection E as -> ->. now exists m1.
  - injection E as -> E. apply IH in E; [|lia].
    destruct E as (mid & -> & ->). now exists mid.
Qed.

End Cut.

Lemma locate_last_inside aa bb segs i aai bbi :
  locate aa bb segs i aai bbi
  = (last_inside aa segs i aai, last_inside bb segs i bbi).
Proof.
  revert i aai bbi. induction segs as [|seg rest IH]; intros; simpl;
    [reflexivity|apply IH].
Qed.

Lemma last_inside_located x segs i acc :
  located x segs i acc (last_inside x segs i acc).
Proof.
  revert i acc. induction segs as [|seg rest IH]; intros i acc; simpl.
  - left. split; [reflexivity|constructor].
  - destruct (IH (i + 1)%Z (if inside x seg then i else acc))
      as [[-> Hout]|(l1 & s & l2 & -> & -> & Hin & Hout)].
    + destruct (inside x seg) eqn:E.
      * right. exists [], seg, rest. simpl. repeat split; [lia|assumption..].
      * left. split; [reflexivity|now constructor].
    + right. exists (seg :: l1), s, l2. simpl length.
      repeat split; [lia|assumption..].
Qed.

(** *** The pieces of a chain *)

Lemma chained_cut (l1 : list segment) (s : segment) (l2 : list segment) :
  chained (l1 ++ s :: l2) ->
  valid s /\
  (forall x, In x l1 -> valid x /\ before x s) /\
  (forall y, In y l2 -> valid y /\ before s y) /\
  (forall x y, In x l1 -> In y l2 -> before x y) /\
  chained (l1 ++ l2).
Proof.
  intros [Hv Hs].
  rewrite Forall_app in Hv. destruct Hv as [Hv1 Hv2].
  apply Forall_inv in Hv2 as Hvs. apply Forall_inv_tail in Hv2.
  apply StronglySorted_app_iff in Hs. destruct Hs as (Hs1 & Hs2 & H12).
  apply StronglySorted_inv in Hs2. destruct Hs2 as [Hs2 Hf2].
  rewrite Forall_forall in *.
  repeat split; try (rewrite Forall_forall); auto.
  - apply H12; [assumption|now left].
  - intros x y Hx Hy. apply H12; [assumption|now right].
  - intros x Hx. apply in_app_iff in Hx. destruct Hx; auto.
  - apply StronglySorted_app_iff. repeat split; auto.
    intros x y Hx Hy. apply H12; [assumption|now right].
Qed.

Lemma sortable_snoc (kept : list segment) (new : segment) :
  StronglySorted before kept ->
  (forall x, In x kept -> sortable x new) ->
  StronglySorted sortable (kept ++ [new]).
Proof.
  intros Hs Hn. apply StronglySorted_app_iff. repeat split.
  - apply StronglySorted_weaken with (R := before); [|assumption].
    intros x y _ _ Hb. now left.
  - repeat constructor.
  - intros x y Hx [<-|[]]. now apply Hn.
Qed.

Lemma sortable_snoc2 (kept : list segment) (p1 p2 : segment) :
  StronglySorted before kept ->
  (forall x, In x kept -> sortable x p1 /\ sortable x p2) ->
  sortable p1 p2 ->
  StronglySorted sortable (kept ++ [p1; p2]).
Proof.
  intros Hs Hn H12. apply StronglySorted_app_iff. repeat split.
  - apply StronglySorted_weaken with (R := before); [|assumption].
    intros x y _ _ Hb. now left.
  - constructor; [repeat constructor|].
    constructor; [assumption|constructor].
  - intros x y Hx [<-|[<-|[]]]; now apply Hn.
Qed.

Lemma valid_snoc (kept : list segment) (new : segment) :
  Forall valid kept -> valid new -> Forall valid (kept ++ [new]).
Proof.
  intros Hk Hn. rewrite Forall_app. split; [assumption|now constructor].
Qed.

Lemma inside_true (x : Q) (s : segment) :
  inside x s = true <-> fst s <= x /\ x <= snd s.
Proof.
  unfold inside. cmp; simpl; intuition; discriminate.
Qed.

Lemma inside_false (x : Q) (s : segment) :
  inside x s = false <-> (x < fst s \/ snd s < x).
Proof.
  unfold inside. cmp; simpl; intuition; try discriminate; lra.
Qed.

Lemma remove_between_In (aa bb : Q) (segs : list segment) (x : segment) :
  In x (remove_between aa bb segs) <->
  In x segs /\ (fst x < aa \/ bb < snd x).
Proof.
  unfold remove_between. rewrite filter_In.
  cmp; simpl; intuition; try discriminate; lra.
Qed.

Lemma remove_between_chained (aa bb : Q) (segs : list segment) :
  chained segs -> chained (remove_between aa bb segs).
Proof.
  intros [Hv Hs]. split.
  - rewrite Forall_forall in *. intros x Hx.
    apply remove_between_In in Hx. now apply Hv.
  - now apply StronglySorted_filter.
Qed.

Lemma good_sorted (l : list segment) : good l -> chained (sorted_by_start l).
Proof. intros [Hv Hs]. now apply sorted_by_start_chain. Qed.

Lemma chained_good (l : list segment) : chained l -> good l.
Proof. intros H. split; [apply H|now apply chained_sortable]. Qed.

(** *** The four moves keep the list sortable into a chain *)

Ltac unfold_segs :=
  unfold sortable, valid, before in *; cbn [fst snd] in *.

(** Move 1: both endpoints outside every segment. *)
Lemma move_clean (aa bb : Q) (segs : list segment) :
  chained segs -> aa <= bb -> outside aa segs -> outside bb segs ->
  good (remove_between aa bb segs ++ [(aa, bb)]).
Proof.
  intros Hc Hle Ha Hb.
  destruct (remove_between_chained aa bb segs Hc) as [Hv Hs]. split.
  - apply valid_snoc; [assumption|]. unfold_segs. lra.
  - apply sortable_snoc; [assumption|].
    intros x Hx. apply remove_between_In in Hx. destruct Hx as [Hx Hnc].
    destruct Hc as [Hvx _]. unfold outside in *.
    rewrite Forall_forall in Hvx, Ha, Hb.
    specialize (Hvx x Hx). specialize (Ha x Hx). specialize (Hb x Hx).
    apply inside_false in Ha, Hb. unfold_segs. lra.
Qed.

(** Move 2: both endpoints inside the segment [(a, b)]; whichever of the
    three shapes the code appends, the result is good. *)
Lemma move_split l1 (a b : Q) l2 (aa bb : Q) :
  chained (l1 ++ (a, b) :: l2) -> aa <= bb ->
  inside aa (a, b) = true -> inside bb (a, b) = true -> outside bb l2 ->
  good ((l1 ++ l2) ++ [(bb, b)]) /\
  good ((l1 ++ l2) ++ [(a, aa)]) /\
  good ((l1 ++ l2) ++ [(a, aa); (bb, b)]).
Proof.
  intros Hc Hle Ha Hb Hout.
  apply chained_cut in Hc. destruct Hc as (Hs & H1 & H2 & _ & [Hv Hss]).
  apply inside_true in Ha, Hb. cbn [fst snd] in Ha, Hb.
  assert (Hx : forall x, In x (l1 ++ l2) ->
                sortable x (a, aa) /\ sortable x (bb, b)).
  { intros x Hx. apply in_app_iff in Hx. destruct Hx as [Hx|Hx].
    - destruct (H1 x Hx). unfold_segs. lra.
    - destruct (H2 x Hx). unfold outside in Hout.
      rewrite Forall_forall in Hout. specialize (Hout x Hx).
      apply inside_false in Hout. unfold_segs. lra. }
  repeat split.
  - apply valid_snoc; [assumption|]. unfold_segs. lra.
  - apply sortable_snoc; [assumption|]. intros x Hi. now apply Hx.
  - apply valid_snoc; [assumption|]. unfold_segs. lra.
  - apply sortable_snoc; [assumption|]. intros x Hi. now apply Hx.
  - rewrite Forall_app. split; [assumption|].
    repeat constructor; unfold_segs; lra.
  - apply sortable_snoc2; [assumption|assumption|]. unfold_segs. lra.
Qed.

(** Move 3, lower endpoint inside [(a, b)], upper endpoint outside every
    segment: the new segment starts at [a]. *)
Lemma move_extend_up l1 (a b : Q) l2 (aa bb : Q) :
  chained (l1 ++ (a, b) :: l2) -> aa <= bb ->
  inside aa (a, b) = true -> outside bb (l1 ++ (a, b) :: l2) ->
  good (remove_between a bb (l1 ++ l2) ++ [(a, bb)]).
Proof.
  intros Hc Hle Ha Hout.
  apply chained_cut in Hc. destruct Hc as (Hs & H1 & H2 & _ & Hc).
  destruct (remove_between_chained a bb _ Hc) as [Hv Hss].
  apply inside_true in Ha. cbn [fst snd] in Ha.
  unfold outside in Hout. rewrite Forall_forall in Hout.
  assert (Hb := Hout (a, b) (in_elt _ _ _)). apply inside_false in Hb.
  split.
  - apply valid_snoc; [assumption|]. unfold_segs. lra.
  - apply sortable_snoc; [assumption|].
    intros x Hx. apply remove_between_In in Hx. destruct Hx as [Hx Hnc].
    apply in_app_iff in Hx. destruct Hx as [Hx|Hx].
    + destruct (H1 x Hx). unfold_segs. lra.
    + destruct (H2 x Hx).
      assert (Hbx : inside bb x = false).
      { apply Hout. apply in_app_iff. right. now right. }
      apply inside_false in Hbx. unfold_segs. lra.
Qed.

(** Move 3, upper endpoint inside [(a, b)], lower endpoint outside every
    segment: the new segment ends at [b]. *)
Lemma move_extend_down l1 (a b : Q) l2 (aa bb : Q) :
  chained (l1 ++ (a, b) :: l2) -> aa <= bb ->
  inside bb (a, b) = true -> outside aa (l1 ++ (a, b) :: l2) ->
  good (remove_between aa b (l1 ++ l2) ++ [(aa, b)]).
Proof.
  intros Hc Hle Hb Hout.
  apply chained_cut in Hc. destruct Hc as (Hs & H1 & H2 & _ & Hc).
  destruct (remove_between_chained aa b _ Hc) as [Hv Hss].
  apply inside_true in Hb. cbn [fst snd] in Hb.
  unfold outside in Hout. rewrite Forall_forall in Hout.
  assert (Ha := Hout (a, b) (in_elt _ _ _)). apply inside_false in Ha.
  split.
  - apply valid_snoc; [assumption|]. unfold_segs. lra.
  - apply sortable_snoc; [assumption|].
    intros x Hx. apply remove_between_In in Hx. destruct Hx as [Hx Hnc].
    apply in_app_iff in Hx. destruct Hx as [Hx|Hx].
    + destruct (H1 x Hx).
      assert (Hax : inside aa x = false).
      { apply Hout. apply in_app_iff. now left. }
      apply inside_false in Hax. unfold_segs. lra.
    + destruct (H2 x Hx). unfold_segs. lra.
Qed.

(** Move 4: lower endpoint inside [(a1, b1)], upper endpoint inside the
    later segment [(a2, b2)]. *)
Lemma move_join l1 (a1 b1 : Q) mid (a2 b2 : Q) l3 (aa bb : Q) :
  chained (l1 ++ (a1, b1) :: mid ++ (a2, b2) :: l3) -> aa <= bb ->
  inside aa (a1, b1) = true -> inside bb (a2, b2) = true -> outside bb l3 ->
  good (remove_between aa bb (l1 ++ mid ++ l3) ++ [(a1, b2)]).
Proof.
  intros Hc Hle Ha Hb Hout.
  apply chained_cut in Hc. destruct Hc as (Hs1 & H1 & H2 & _ & Hc).
  rewrite app_assoc in Hc.
  apply chained_cut in Hc. destruct Hc as (Hs2 & H3 & H4 & _ & Hc).
  rewrite <- app_assoc in Hc.
  destruct (remove_between_chained aa bb _ Hc) as [Hv Hss].
  apply inside_true in Ha, Hb. cbn [fst snd] in Ha, Hb.
  assert (H12 : before (a1, b1) (a2, b2)).
  { apply H2. apply in_app_iff. right. now left. }
  split.
  - apply valid_snoc; [assumption|]. unfold_segs. lra.
  - apply sortable_snoc; [assumption|].
    intros x Hx. apply remove_between_In in Hx. destruct Hx as [Hx Hnc].
    apply in_app_iff in Hx. destruct Hx as [Hx|Hx].
    + destruct (H1 x Hx). unfold_segs. lra.
    + apply in_app_iff in Hx. destruct Hx as [Hx|Hx].
      * assert (Hm1 : valid x /\ before (a1, b1) x).
        { apply H2. apply in_app_iff. now left. }
        assert (Hm2 : valid x /\ before x (a2, b2)).
        { apply H3. apply in_app_iff. now right. }
        unfold_segs. lra.
      * destruct (H4 x Hx). unfold outside in Hout.
        rewrite Forall_forall in Hout. specialize (Hout x Hx).
        apply inside_false in Hout. unfold_segs. lra.
Qed.

(** In a chain the segment found for the lower endpoint is never listed
    after the one found for the upper endpoint. *)
Lemma located_in_order (aa bb : Q) l1 (s : segment) l2 m1 (r : segment) m2 :
  chained (l1 ++ s :: l2) -> aa <= bb ->
  l1 ++ s :: l2 = m1 ++ r :: m2 ->
  inside aa s = true -> inside bb r = true -> outside bb m2 ->
  (length l1 <= length m1)%nat.
Proof.
  intros Hc Hle E Ha Hb Hout.
  destruct (Nat.le_gt_cases (length l1) (length m1)) as [|Hlt]; [assumption|].
  exfalso. symmetry in E.
  destruct (cut_earlier _ _ _ _ _ _ E Hlt) as (mid & -> & ->).
  rewrite <- app_assoc in Hc. simpl in Hc.
  apply chained_cut in Hc. destruct Hc as (Hr & _ & H2 & _).
  assert (Hs : valid s /\ before r s).
  { apply H2. apply in_app_iff. right. now left. }
  unfold outside in Hout. rewrite Forall_forall in Hout.
  assert (Hbs : inside bb s = false).
  { apply Hout. apply in_app_iff. right. now left. }
  apply inside_true in Ha, Hb. apply inside_false in Hbs.
  unfold_segs. lra.
Qed.

Lemma of_nat_not_minus_one (n : nat) : (Z.of_nat n =? -1)%Z = false.
Proof. apply Z.eqb_neq. lia. Qed.

Lemma minus_one_below_of_nat (n : nat) : (-1 <? Z.of_nat n)%Z = true.
Proof. apply Z.ltb_lt. lia. Qed.

(** Whatever the classification, no [pop] of [put_anchor] raises, and the
    list the branches leave sorts into a chain. *)
Lemma put_moves_good (flag : bool) (aa bb : Q) (segs : list segment)
    (aai bbi : Z) :
  chained segs -> aa <= bb ->
  locate aa bb segs 0 (-1) (-1) = (aai, bbi) ->
  exists segs' move,
    put_moves flag aa bb aai bbi segs = (segs', Returns move) /\ good segs'.
Proof.
  intros Hc Hle Hloc. rewrite locate_last_inside in Hloc.
  injection Hloc as <- <-.
  destruct (last_inside_located aa segs 0 (-1))
    as [[Ea Ha]|(l1 & s & l2 & E1 & Ea & Hina & Houta)];
  destruct (last_inside_located bb segs 0 (-1))
    as [[Eb Hb]|(m1 & r & m2 & E2 & Eb & Hinb & Houtb)];
  rewrite ?Z.add_0_l in *; rewrite Ea, Eb; unfold put_moves.
  - (* move 1 *)
    cbn. do 2 eexists. split; [reflexivity|]. now apply move_clean.
  - (* move 3, upper endpoint inside *)
    rewrite ?of_nat_not_minus_one, ?minus_one_below_of_nat. cbn.
    subst segs. rewrite pop_at. destruct r as [a b].
    do 2 eexists. split; [reflexivity|]. eapply move_extend_down; eassumption.
  - (* move 3, lower endpoint inside *)
    rewrite ?of_nat_not_minus_one, ?minus_one_below_of_nat. cbn.
    subst segs. rewrite pop_at. destruct s as [a b].
    do 2 eexists. split; [reflexivity|]. eapply move_extend_up; eassumption.
  - rewrite !of_nat_not_minus_one, minus_one_below_of_nat. cbn [andb negb orb].
    subst segs.
    destruct (Z.eqb_spec (Z.of_nat (length l1)) (Z.of_nat (length m1)))
      as [Heq|Hne].
    + (* move 2 *)
      apply Nat2Z.inj in Heq.
      destruct (cut_unique _ _ _ _ _ _ E2 Heq) as (<- & <- & <-).
      rewrite pop_at. destruct s as [a b].
      destruct (move_split _ _ _ _ _ _ Hc Hle Hina Hinb Houtb)
        as (G1 & G2 & G3).
      destruct (Ts.eqb a aa); [|destruct (Ts.eqb b bb)];
        do 2 eexists; (split; [reflexivity|assumption]).
    + cbn [negb andb]. destruct flag.
      * (* move 4 *)
        assert (Hlt : (length l1 < length m1)%nat).
        { pose proof (located_in_order _ _ _ _ _ _ _ _
                        Hc Hle E2 Hina Hinb Houtb). lia. }
        destruct (cut_earlier _ _ _ _ _ _ E2 Hlt) as (mid & -> & ->).
        rewrite pop_at. destruct s as [a1 b1].
        rewrite length_cut_pred, app_assoc, pop_at. destruct r as [a2 b2].
        rewrite <- app_assoc.
        do 2 eexists. split; [reflexivity|]. eapply move_join; eassumption.
      * (* different segments, joining disabled *)
        do 2 eexists. split; [reflexivity|]. now apply chained_good.
Qed.

(** [put_anchor] leaves the segment list a chain, whether it completes or
    raises; and the only exception it raises is the [UnboundLocalError] of
    line 766. *)
Lemma put_anchor_call_chained (flag : bool) (pos : Q) (self : Timeline) :
  chained (segments self) ->
  chained (segments (fst (put_anchor_call flag pos self))) /\
  (snd (put_anchor_call flag pos self) = Returns tt \/
   snd (put_anchor_call flag pos self) = Raises UnboundLocalError).
Proof.
  intros Hc. unfold put_anchor_call, sorted_endpoints.
  destruct (anchor self) as [anc|].
  - destruct (Ts_ltb_spec pos anc) as [Hlt|Hge].
    + destruct (locate pos anc (segments self) 0 (-1) (-1)) as [aai bbi] eqn:El.
      destruct (put_moves_good flag pos anc _ aai bbi Hc)
        as (segs & move & -> & Hg); [lra|assumption|].
      unfold finish_put. destruct move; cbn [fst snd segments];
        (split; [now apply good_sorted|auto]).
    + destruct (locate anc pos (segments self) 0 (-1) (-1)) as [aai bbi] eqn:El.
      destruct (put_moves_good flag anc pos _ aai bbi Hc)
        as (segs & move & -> & Hg); [lra|assumption|].
      unfold finish_put. destruct move; cbn [fst snd segments];
        (split; [now apply good_sorted|auto]).
  - unfold finish_put. cbn [fst snd segments].
    split; [now apply chained_sorted|auto].
Qed.

(** What [put_anchor] returns is the object its call leaves behind. *)
Lemma put_anchor_returns (flag : bool) (pos : Q) (self self' : Timeline) :
  put_anchor flag pos self = Returns self' <->
  put_anchor_call flag pos self = (self', Returns tt).
Proof.
  unfold put_anchor, completed.
  destruct (put_anchor_call flag pos self) as [s [e|[]]]; cbn [fst snd].
  - split; discriminate.
  - split; intros H; injection H as <-; reflexivity.
Qed.

Lemma put_anchor_raises (flag : bool) (pos : Q) (self : Timeline) (e : exn) :
  put_anchor flag pos self = Raises e <->
  snd (put_anchor_call flag pos self) = Raises e.
Proof.
  unfold put_anchor, completed.
  destruct (put_anchor_call flag pos self) as [s [e'|[]]]; cbn [fst snd].
  - split; intros H; injection H as ->; reflexivity.
  - split; discriminate.
Qed.

(** *** [del_anchor] *)

Lemma seg_eqb_refl (s : segment) : seg_eqb s s = true.
Proof.
  unfold seg_eqb. apply andb_true_iff. split.
  - destruct (Ts_eqb_spec (fst s) (fst s)) as [|H]; [reflexivity|].
    exfalso. apply H. reflexivity.
  - destruct (Ts_eqb_spec (snd s) (snd s)) as [|H]; [reflexivity|].
    exfalso. apply H. reflexivity.
Qed.

(** [remove] deletes the first element equal to [x]; it raises exactly when
    no element is equal to [x]. *)
Lemma remove_returns {A : Type} (eqb : A -> A -> bool) (x : A) (l r : list A) :
  PyList.remove eqb x l = Returns r ->
  exists l1 y l2, l = l1 ++ y :: l2 /\ r = l1 ++ l2 /\ eqb y x = true /\
                  Forall (fun z => eqb z x = false) l1.
Proof.
  revert r. induction l as [|y l IH]; intros r H; simpl in H; [discriminate|].
  destruct (eqb y x) eqn:E.
  - injection H as <-. exists [], y, l. now repeat split.
  - destruct (PyList.remove eqb x l) as [e|r'] eqn:Er; [discriminate|].
    injection H as <-.
    destruct (IH r' eq_refl) as (l1 & z & l2 & -> & -> & Hz & Hf).
    exists (y :: l1), z, l2. repeat split; [assumption|now constructor].
Qed.

Lemma remove_present {A : Type} (eqb : A -> A -> bool) (x : A) (l : list A) :
  Exists (fun y => eqb y x = true) l ->
  exists r, PyList.remove eqb x l = Returns r.
Proof.
  induction 1 as [y l Hy|y l _ [r IH]]; simpl.
  - rewrite Hy. eauto.
  - destruct (eqb y x); [eauto|]. rewrite IH. eauto.
Qed.

(** With [len(segs) - i] rounds left at its disposal the loop of
    [del_anchor] completes, and it keeps a chain a chain. *)
Lemma del_loop_chained (fuel : nat) (t : Q) (i : nat) (segs : list segment)
    (anc : option Q) :
  (length segs <= fuel + i)%nat -> chained segs ->
  exists segs' anc', del_loop fuel t i segs anc = Returns (segs', anc') /\
                     chained segs'.
Proof.
  revert i segs anc. induction fuel as [|fuel IH]; intros i segs anc Hlen Hc.
  - simpl. destruct (nth_error segs i) as [[a b]|] eqn:En.
    + assert (nth_error segs i <> None) as Hn by congruence.
      apply nth_error_Some in Hn. lia.
    + eauto.
  - simpl. destruct (nth_error segs i) as [[a b]|] eqn:En; [|eauto].
    assert (Hrm : exists r, PyList.remove seg_eqb (a, b) segs = Returns r /\
                            (length r < length segs)%nat /\ chained r).
    { destruct (remove_present seg_eqb (a, b) segs) as [r Hr].
      - apply Exists_exists. exists (a, b).
        split; [eapply nth_error_In; eassumption|apply seg_eqb_refl].
      - exists r. split; [assumption|].
        apply remove_returns in Hr.
        destruct Hr as (l1 & y & l2 & -> & -> & _ & _). split.
        + rewrite !length_app. simpl. lia.
        + now apply chained_cut in Hc. }
    destruct Hrm as (r & Hr & Hlr & Hcr).
    destruct (Ts.eqb a t); [|destruct (Ts.eqb b t)].
    + rewrite Hr. cbn [bind]. apply IH; [lia|assumption].
    + rewrite Hr. cbn [bind]. apply IH; [lia|assumption].
    + apply IH; [lia|assumption].
Qed.

Lemma del_anchor_chained (t : Q) (self : Timeline) :
  chained (segments self) ->
  exists self', del_anchor t self = Returns self' /\ chained (segments self').
Proof.
  intros Hc. unfold del_anchor.
  destruct (is_anchor t (anchor self)).
  - eexists. split; [reflexivity|assumption].
  - destruct (del_loop_chained (length (segments self)) t 0 (segments self)
                (anchor self)) as (segs' & anc' & -> & Hc'); [lia|assumption|].
    cbn. eexists. split; [reflexivity|assumption].
Qed.

(** The object a call leaves behind holds a chain again; the call completes
    with that object, or it raises [UnboundLocalError]. *)
Lemma after_call_chained (c : call) (self : Timeline) :
  chained (segments self) ->
  chained (segments (after_call c self)) /\
  (do_call c self = Returns (after_call c self) \/
   do_call c self = Raises UnboundLocalError).
Proof.
  intros Hc. destruct c as [pos flag|t]; cbn [after_call do_call].
  - destruct (put_anchor_call_chained flag pos self Hc) as [Hc' Ho].
    split; [assumption|].
    destruct Ho as [Ho|Ho].
    + left. apply put_anchor_returns.
      destruct (put_anchor_call flag pos self) as [s o]. cbn [fst snd] in *.
      now subst o.
    + right. now apply put_anchor_raises.
  - destruct (del_anchor_chained t self Hc) as (self' & -> & Hc'). auto.
Qed.

(** Every sequence of calls keeps the segment list a chain, whether or not
    some of the calls raised; run without going on after an exception, it
    completes with that object or stops with [UnboundLocalError]. *)
Lemma after_calls_chained (cs : list call) (self : Timeline) :
  chained (segments self) ->
  chained (segments (after_calls cs self)) /\
  (run cs self = Returns (after_calls cs self) \/
   run cs self = Raises UnboundLocalError).
Proof.
  revert self. induction cs as [|c cs IH]; intros self Hc;
    cbn [after_calls run].
  - auto.
  - destruct (after_call_chained c self Hc) as [Hc' Ho].
    destruct (IH _ Hc') as [Hc'' Hr]. split; [assumption|].
    destruct Ho as [-> | ->]; cbn [bind]; auto.
Qed.

Lemma empty_chained : chained (segments empty_timeline).
Proof. split; constructor. Qed.

(** C1. After every finite sequence of [put_anchor] and [del_anchor] calls
    on the empty Timeline, with any positions and flags, the segment list
    of the object is sorted ascending by start and pairwise non-overlapping
    (of any two segments, one ends no later than the other starts).  This
    holds whether or not calls have raised on the way: a call raises only
    at line 766, after the list has been sorted.  The sequence run without
    going on after an exception ends with that very object, or stops with
    [UnboundLocalError]. *)
Theorem segments_sorted_non_overlapping :
  forall cs : list call,
    ascending_by_start (segments (after_calls cs empty_timeline)) /\
    non_overlapping (segments (after_calls cs empty_timeline)) /\
    (run cs empty_timeline = Returns (after_calls cs empty_timeline) \/
     run cs empty_timeline = Raises UnboundLocalError).
Proof.
  intros cs.
  destruct (after_calls_chained cs empty_timeline empty_chained) as [Hc Hr].
  repeat split.
  - now apply chained_ascending.
  - now apply chained_non_overlapping.
  - assumption.
Qed.

(** *** Segments are never inverted *)

(** C6 (as stated, refuted).  Two [put_anchor] calls at the same position
    create the zero-length segment [(10, 10)]: the claim that every segment
    has [start < end] fails. *)
Lemma zero_length_segment_created :
  run [PutAnchor 10 true; PutAnchor 10 true] empty_timeline
  = Returns {| segments := [(10, 10)]; anchor := None |} /\
  ~ (forall cs self,
        run cs empty_timeline = Returns self ->
        Forall (fun s => fst s < snd s) (segments self)).
Proof.
  split; [reflexivity|].
  intros H.
  specialize (H [PutAnchor 10 true; PutAnchor 10 true] _ eq_refl).
  apply Forall_inv in H. simpl in H. lra.
Qed.

(** C6 (amended).  After every finite sequence of [put_anchor] and
    [del_anchor] calls on the empty Timeline, whether or not calls have
    raised on the way, every segment [(start, end)] of the list satisfies
    [start <= end]: no inverted segment is ever created (a zero-length one
    is, when both picks coincide). *)
Theorem segments_never_inverted :
  forall cs : list call,
    Forall (fun s => fst s <= snd s)
           (segments (after_calls cs empty_timeline)).
Proof.
  intros cs.
  destruct (after_calls_chained cs empty_timeline empty_chained) as [Hc _].
  apply Hc.
Qed.

(** *** Endpoints in two different segments, joining disabled *)

Lemma put_anchor_call_pending (flag : bool) (pos anc : Q) (self : Timeline) :
  anchor self = Some anc ->
  put_anchor_call flag pos self =
  (let '(aa, bb) := sorted_endpoints anc pos in
   let '(aai, bbi) := locate aa bb (segments self) 0 (-1) (-1) in
   match put_moves flag aa bb aai bbi (segments self) with
   | (segs, Raises e) => ({| segments := segs; anchor := Some anc |}, Raises e)
   | (segs, Returns move) =>
       finish_put {| segments := segs; anchor := None |} move
   end).
Proof.
  intros E. unfold put_anchor_call. rewrite E. reflexivity.
Qed.

(** C5 (the code departs from the claim).  With an anchor pending, when
    the loop of [put_anchor] finds the lower endpoint in segment number [i]
    and the upper endpoint in a different segment number [j], and
    [split_if_inside] is false, no branch of the [if]/[elif] chain runs.
    The call clears the anchor and leaves the (sorted) segment list as it
    was, as claimed; but it does not complete: line 766 reads the local
    variable [move], which no branch has assigned, and raises
    [UnboundLocalError]. *)
Theorem put_anchor_join_disabled_raises :
  forall (self : Timeline) (anc pos : Q) (i j : nat),
    anchor self = Some anc ->
    ascending_by_start (segments self) ->
    locate (fst (sorted_endpoints anc pos)) (snd (sorted_endpoints anc pos))
           (segments self) 0 (-1) (-1) = (Z.of_nat i, Z.of_nat j) ->
    i <> j ->
    put_anchor_call false pos self
    = ({| segments := segments self; anchor := None |},
       Raises UnboundLocalError) /\
    put_anchor false pos self = Raises UnboundLocalError.
Proof.
  intros self anc pos i j Ha Hs Hl Hij.
  assert (E : put_anchor_call false pos self
              = ({| segments := segments self; anchor := None |},
                 Raises UnboundLocalError)).
  { rewrite (put_anchor_call_pending _ _ _ _ Ha).
    destruct (sorted_endpoints anc pos) as [aa bb]. cbn [fst snd] in Hl.
    rewrite Hl. unfold put_moves.
    rewrite !of_nat_not_minus_one, minus_one_below_of_nat.
    destruct (Z.eqb_spec (Z.of_nat i) (Z.of_nat j)) as [E|_]; [lia|].
    cbn. now rewrite sorted_by_start_id. }
  split; [assumption|].
  apply put_anchor_raises. now rewrite E.
Qed.

Lemma put_anchor_join_disabled_raises_witness :
  put_anchor_call false 35
    {| segments := [(10, 20); (30, 40)]; anchor := Some 15 |}
  = ({| segments := [(10, 20); (30, 40)]; anchor := None |},
     Raises UnboundLocalError) /\
  put_anchor false 35 {| segments := [(10, 20); (30, 40)]; anchor := Some 15 |}
  = Raises UnboundLocalError.
Proof.
  apply (put_anchor_join_disabled_raises
           {| segments := [(10, 20); (30, 40)]; anchor := Some 15 |}
           15 35 0%nat 1%nat).
  - reflexivity.
  - repeat constructor; simpl; lra.
  - reflexivity.
  - discriminate.
Defined.

(** *** Deleting at a segment boundary *)

Lemma ForallOrdPairs_cross {A : Type} (R : A -> A -> Prop) (l1 l2 : list A) :
  ForallOrdPairs R (l1 ++ l2) ->
  forall x y, In x l1 -> In y l2 -> R x y.
Proof.
  induction l1 as [|a l1 IH]; simpl; intros H x y Hx Hy; [contradiction|].
  inversion H as [|? ? Hf Hp]; subst.
  destruct Hx as [<-|Hx].
  - rewrite Forall_forall in Hf. apply Hf. apply in_app_iff. now right.
  - now apply IH.
Qed.

Lemma boundaries_app (l1 l2 : list segment) :
  boundaries (l1 ++ l2) = boundaries l1 ++ boundaries l2.
Proof. apply flat_map_app. Qed.

Lemma boundaries_In (s : segment) (l : list segment) :
  In s l -> In (fst s) (boundaries l) /\ In (snd s) (boundaries l).
Proof.
  intros H. unfold boundaries. split; apply in_flat_map; exists s;
    (split; [assumption|simpl; auto]).
Qed.

Lemma remove_at {A : Type} (eqb : A -> A -> bool) (x y : A) (l1 l2 : list A) :
  Forall (fun z => eqb z x = false) l1 -> eqb y x = true ->
  PyList.remove eqb x (l1 ++ y :: l2) = Returns (l1 ++ l2).
Proof.
  intros Hf Hy. induction Hf as [|z l1 Hz _ IH]; simpl.
  - now rewrite Hy.
  - now rewrite Hz, IH.
Qed.

(** The loop over segments none of which has [t] as a boundary changes
    nothing. *)
Lemma del_loop_skip (fuel : nat) (t : Q) (i : nat) (segs : list segment)
    (anc : option Q) :
  (length segs <= fuel + i)%nat ->
  (forall k s, (i <= k)%nat -> nth_error segs k = Some s -> unmatched t s) ->
  del_loop fuel t i segs anc = Returns (segs, anc).
Proof.
  revert i. induction fuel as [|fuel IH]; intros i Hlen Hun; simpl.
  - destruct (nth_error segs i) as [[a b]|] eqn:En; [|reflexivity].
    assert (nth_error segs i <> None) as Hn by congruence.
    apply nth_error_Some in Hn. lia.
  - destruct (nth_error segs i) as [[a b]|] eqn:En; [|reflexivity].
    destruct (Hun i (a, b) (le_n i) En) as [Hna Hnb]. cbn [fst snd] in *.
    destruct (Ts_eqb_spec a t); [contradiction|].
    destruct (Ts_eqb_spec b t); [contradiction|].
    apply IH; [lia|]. intros k s Hk. apply Hun. lia.
Qed.

(** The loop reaching the one segment [(a, b)] that has [t] as a boundary
    deletes it and leaves the other boundary as the anchor. *)
Lemma del_loop_hit (fuel : nat) (t : Q) (i : nat) l1 (a b : Q) l2
    (anc : option Q) :
  (length (l1 ++ (a, b) :: l2) <= fuel + i)%nat -> (i <= length l1)%nat ->
  Forall (unmatched t) l1 -> Forall (unmatched t) l2 ->
  (a == t \/ b == t) ->
  del_loop fuel t i (l1 ++ (a, b) :: l2) anc
  = Returns (l1 ++ l2, Some (if Ts.eqb a t then b else a)).
Proof.
  intros Hlen Hi H1 H2 Hab.
  assert (Hrm : PyList.remove seg_eqb (a, b) (l1 ++ (a, b) :: l2)
                = Returns (l1 ++ l2)).
  { apply remove_at; [|apply seg_eqb_refl].
    rewrite Forall_forall in *. intros z Hz. destruct (H1 z Hz) as [Hza Hzb].
    unfold seg_eqb. cbn [fst snd].
    destruct (Ts_eqb_spec (fst z) a), (Ts_eqb_spec (snd z) b);
      try reflexivity; exfalso; destruct Hab; lra. }
  revert i Hlen Hi. induction fuel as [|fuel IH]; intros i Hlen Hi.
  - rewrite length_app in Hlen. simpl in Hlen. lia.
  - simpl. destruct (Nat.eq_dec i (length l1)) as [->|Hne].
    + rewrite (proj1 (cut_here _ _ _)).
      assert (Hskip : forall o,
                 del_loop fuel t (S (length l1)) (l1 ++ l2) o
                 = Returns (l1 ++ l2, o)).
      { intros o. apply del_loop_skip.
        - rewrite length_app in *. simpl in Hlen. lia.
        - intros k s Hk Hs. rewrite nth_error_app2 in Hs by lia.
          apply nth_error_In in Hs. rewrite Forall_forall in H2.
          now apply H2. }
      destruct (Ts_eqb_spec a t) as [Ea|Ea].
      * rewrite Hrm. cbn [bind]. apply Hskip.
      * destruct (Ts_eqb_spec b t) as [Eb|Eb]; [|tauto].
        rewrite Hrm. cbn [bind]. apply Hskip.
    + assert (Hlt : (i < length l1)%nat) by lia.
      rewrite nth_error_app1 by assumption.
      destruct (nth_error l1 i) as [[x y]|] eqn:En.
      2:{ apply nth_error_None in En. lia. }
      apply nth_error_In in En. rewrite Forall_forall in H1.
      destruct (H1 _ En) as [Hx Hy]. cbn [fst snd] in *.
      destruct (Ts_eqb_spec x t); [contradiction|].
      destruct (Ts_eqb_spec y t); [contradiction|].
      apply IH; lia.
Qed.

(** C8. In a Timeline whose segment boundaries are pairwise distinct, when
    the target of [del_anchor] equals a boundary of the segment [(a, b)] and
    is not the pending anchor, [del_anchor] removes exactly that segment and
    makes the segment's other boundary the pending anchor. *)
Theorem del_anchor_at_boundary :
  forall (l1 : list segment) (a b : Q) (l2 : list segment) (anc : option Q)
         (target : Q),
    pairwise_distinct (boundaries (l1 ++ (a, b) :: l2)) ->
    target == a \/ target == b ->
    is_anchor target anc = false ->
    del_anchor target {| segments := l1 ++ (a, b) :: l2; anchor := anc |}
    = Returns {| segments := l1 ++ l2;
                 anchor := Some (if Ts.eqb a target then b else a) |}.
Proof.
  intros l1 a b l2 anc t Hd Hab Hanc.
  unfold del_anchor. cbn [anchor segments]. rewrite Hanc.
  assert (H1 : Forall (unmatched t) l1).
  { rewrite Forall_forall. intros z Hz.
    rewrite boundaries_app in Hd.
    pose proof (ForallOrdPairs_cross _ _ _ Hd) as Hc.
    destruct (boundaries_In z l1 Hz) as [Hzs Hze].
    assert (Ia : In a (boundaries ((a, b) :: l2))) by (simpl; auto).
    assert (Ib : In b (boundaries ((a, b) :: l2))) by (simpl; auto).
    pose proof (Hc _ _ Hzs Ia). pose proof (Hc _ _ Hzs Ib).
    pose proof (Hc _ _ Hze Ia). pose proof (Hc _ _ Hze Ib).
    cbv beta in *. split; intro; destruct Hab; lra. }
  assert (H2 : Forall (unmatched t) l2).
  { rewrite Forall_forall. intros z Hz.
    rewrite boundaries_app in Hd.
    change (boundaries ((a, b) :: l2)) with ([a; b] ++ boundaries l2) in Hd.
    rewrite app_assoc in Hd.
    pose proof (ForallOrdPairs_cross _ _ _ Hd) as Hc.
    destruct (boundaries_In z l2 Hz) as [Hzs Hze].
    assert (Ia : In a (boundaries l1 ++ [a; b])).
    { apply in_app_iff. right. simpl. auto. }
    assert (Ib : In b (boundaries l1 ++ [a; b])).
    { apply in_app_iff. right. simpl. auto. }
    pose proof (Hc _ _ Ia Hzs). pose proof (Hc _ _ Ib Hzs).
    pose proof (Hc _ _ Ia Hze). pose proof (Hc _ _ Ib Hze).
    cbv beta in *. split; intro; destruct Hab; lra. }
  rewrite (del_loop_hit _ t 0 l1 a b l2 anc); try assumption.
  - reflexivity.
  - rewrite Nat.add_0_r. apply Nat.le_refl.
  - apply Nat.le_0_l.
  - destruct Hab as [E|E]; [left|right]; lra.
Qed.

Lemma del_anchor_at_boundary_witness :
  del_anchor 10 {| segments := [(10, 20)]; anchor := None |}
  = Returns {| segments := []; anchor := Some 20 |}.
Proof.
  apply (del_anchor_at_boundary [] 10 20 [] None 10).
  - repeat constructor. simpl. lra.
  - left. reflexivity.
  - reflexivity.
Defined.

(** *** Saving and replaying a Timeline *)

Lemma separated_chained (l : list segment) : separated l -> chained l.
Proof.
  intros [Hv Hs]. split.
  - eapply Forall_impl; [|exact Hv]. intros s H. unfold valid.
    cbv beta in H. lra.
  - eapply StronglySorted_weaken; [|exact Hs].
    intros x y _ _ H. unfold before. cbv beta in H. lra.
Qed.

Lemma outside_last_inside (x : Q) (segs : list segment) (i acc : Z) :
  outside x segs -> last_inside x segs i acc = acc.
Proof.
  intros H. revert i. induction H as [|s segs Hs _ IH]; intros i; simpl.
  - reflexivity.
  - rewrite Hs. apply IH.
Qed.

Lemma remove_between_nothing (aa bb : Q) (segs : list segment) :
  Forall (fun s => fst s < aa) segs -> remove_between aa bb segs = segs.
Proof.
  induction 1 as [|s segs Hs _ IH]; [reflexivity|].
  unfold remove_between in *. cbn [filter]. rewrite IH.
  destruct (Ts_leb_spec aa (fst s)); [lra|reflexivity].
Qed.

(** Replaying one saved segment that lies strictly after every segment
    already there appends it. *)
Lemma replay_one (done : list segment) (a b : Q) :
  separated (done ++ [(a, b)]) ->
  (self <- put_anchor true a {| segments := done; anchor := None |} ;;
   put_anchor false b self)
  = Returns {| segments := done ++ [(a, b)]; anchor := None |}.
Proof.
  intros Hsep. pose proof (separated_chained _ Hsep) as Hc.
  apply chained_ascending in Hc as Hasc.
  destruct Hsep as [Hv Hs].
  apply StronglySorted_app_iff in Hs. destruct Hs as (Hs1 & _ & Hcross).
  rewrite Forall_app in Hv. destruct Hv as [Hv1 Hv2].
  apply Forall_inv in Hv2. cbn [fst snd] in Hv2.
  assert (Hd : ascending_by_start done).
  { unfold ascending_by_start in *.
    apply StronglySorted_app_iff in Hasc. apply Hasc. }
  assert (Hbefore : forall s, In s done -> fst s < snd s /\ snd s < a).
  { intros s Hin. rewrite Forall_forall in Hv1. split; [now apply Hv1|].
    apply (Hcross s (a, b)); [assumption|now left]. }
  assert (E1 : put_anchor true a {| segments := done; anchor := None |}
               = Returns {| segments := done; anchor := Some a |}).
  { apply put_anchor_returns. unfold put_anchor_call, finish_put.
    cbn [anchor segments]. now rewrite (sorted_by_start_id _ Hd). }
  rewrite E1. cbn [bind]. apply put_anchor_returns.
  rewrite (put_anchor_call_pending false b a) by reflexivity.
  unfold sorted_endpoints. destruct (Ts_ltb_spec b a); [lra|].
  cbn [segments]. rewrite locate_last_inside.
  rewrite !outside_last_inside.
  - unfold put_moves. change ((-1 =? -1)%Z) with true. cbn [andb].
    unfold finish_put. cbn [segments anchor].
    rewrite remove_between_nothing.
    + now rewrite (sorted_by_start_id _ Hasc).
    + rewrite Forall_forall. intros s Hin.
      destruct (Hbefore s Hin). lra.
  - unfold outside. rewrite Forall_forall. intros s Hin.
    apply inside_false. destruct (Hbefore s Hin). lra.
  - unfold outside. rewrite Forall_forall. intros s Hin.
    apply inside_false. destruct (Hbefore s Hin). lra.
Qed.

Lemma replay_separated (todo done : list segment) :
  separated (done ++ todo) ->
  replay todo {| segments := done; anchor := None |}
  = Returns {| segments := done ++ todo; anchor := None |}.
Proof.
  revert done. induction todo as [|[a b] todo IH]; intros done Hsep;
    cbn [replay].
  - now rewrite app_nil_r.
  - assert (H1 : separated (done ++ [(a, b)])).
    { destruct Hsep as [Hv Hs].
      change ((a, b) :: todo) with ([(a, b)] ++ todo) in Hv, Hs.
      rewrite app_assoc in Hv, Hs. split.
      - rewrite Forall_app in Hv. apply Hv.
      - apply StronglySorted_app_iff in Hs. apply Hs. }
    pose proof (replay_one done a b H1) as Hone.
    destruct (put_anchor true a {| segments := done; anchor := None |})
      as [e|s1]; cbn [bind] in *; [discriminate|].
    rewrite Hone. cbn [bind]. rewrite IH.
    + now rewrite <- app_assoc.
    + now rewrite <- app_assoc.
Qed.

(** X12.  Round trip for Timelines whose segments do not touch: replaying the
    saved state on a fresh editor restores the Timeline. *)
Lemma apply_state_round_trip_separated (self : Timeline) :
  separated (segments self) ->
  apply_state (get_state self) empty_timeline = Returns self.
Proof.
  intros Hsep. unfold apply_state, get_state, empty_timeline.
  cbn [state_segments state_anchor].
  rewrite (replay_separated (segments self) []) by assumption.
  cbn. now destruct self.
Qed.

Lemma apply_state_round_trip_separated_witness :
  apply_state
    (get_state {| segments := [(10, 20); (30, 40)]; anchor := Some 25 |})
    empty_timeline
  = Returns {| segments := [(10, 20); (30, 40)]; anchor := Some 25 |}.
Proof.
  apply (apply_state_round_trip_separated
           {| segments := [(10, 20); (30, 40)]; anchor := Some 25 |}).
  split; repeat constructor; simpl; lra.
Defined.

(** C3 (the code at the failing input).  The Timeline [(10,20), (20,30)],
    which the editor reaches by splitting [(10,30)] at 20, is sorted,
    non-overlapping and has [start < end] throughout; replaying its saved
    state through [apply_state] yields the single segment [(10,30)]: the two
    abutting segments are merged by move 3 of [put_anchor], which the
    disabled [split_if_inside] does not guard. *)
Theorem apply_state_merges_abutting :
  let self := {| segments := [(10, 20); (20, 30)]; anchor := None |} in
  run [PutAnchor 10 true; PutAnchor 30 true; PutAnchor 20 true;
       PutAnchor 20 true] empty_timeline = Returns self /\
  ascending_by_start (segments self) /\
  non_overlapping (segments self) /\
  Forall (fun s => fst s < snd s) (segments self) /\
  apply_state (get_state self) empty_timeline
  = Returns {| segments := [(10, 30)]; anchor := None |}.
Proof.
  cbv zeta. split; [reflexivity|]. split; [|split; [|split]].
  - repeat constructor; simpl; lra.
  - constructor; [|repeat constructor].
    constructor; [|constructor]. left. unfold before. simpl. lra.
  - repeat constructor; simpl; lra.
  - reflexivity.
Qed.

(** ** Inverter *)

(** C4 (the code at the failing input).  For total duration 100 (25 fps, no
    index) and segments [(10,20), (50,60)] the loop builds the complement
    [(0,10), (20,50), (60,100)] in its local list, but
    [get_inversed_segments] returns [None], here and on every input. *)
Theorem get_inversed_segments_returns_none :
  Inverter.inversed_local [] 100 25 [(10, 20); (50, 60)]
  = [(0, 10); (20, 50); (60, 100)] /\
  Inverter.get_inversed_segments [] 100 25 [(10, 20); (50, 60)] = None /\
  (forall pts playback_len fps segs,
      Inverter.get_inversed_segments pts playback_len fps segs = None).
Proof.
  split; [reflexivity|]. split; reflexivity.
Qed.

(** ** TimestampIndexBuilder *)

Example packets_example :
  Index.load_timestamps_from_packets false
    [Index.TsTime true (Some 1); Index.KeyFlag;
     Index.TsTime true (Some 1.0015);
     Index.TsTime true (Some 2)]
  = Returns (Some ([1; 1.0015; 2], [1])).
Proof. reflexivity. Qed.

(** *** [sorted(set(...))] is strictly ascending *)

Lemma set_insert_In (x z : Q) (l : list Q) :
  In z (Index.set_insert x l) -> z = x \/ In z l.
Proof.
  induction l as [|y r IH]; simpl.
  - intuition.
  - destruct (Ts.ltb x y); [simpl; intuition|].
    destruct (Ts.eqb x y); [simpl; intuition|].
    simpl. intros [->|H]; [auto|]. apply IH in H. intuition.
Qed.

Lemma set_insert_ascending (x : Q) (l : list Q) :
  strictly_ascending l -> strictly_ascending (Index.set_insert x l).
Proof.
  unfold strictly_ascending.
  induction 1 as [|y r Hs IH Hf]; simpl.
  - repeat constructor.
  - destruct (Ts_ltb_spec x y) as [Hlt|Hge].
    + constructor; [now constructor|].
      constructor; [assumption|].
      rewrite Forall_forall in *. intros z Hz. specialize (Hf z Hz). lra.
    + destruct (Ts_eqb_spec x y) as [Heq|Hne].
      * now constructor.
      * constructor; [assumption|].
        rewrite Forall_forall in *. intros z Hz.
        apply set_insert_In in Hz. destruct Hz as [->|Hz].
        -- lra.
        -- now apply Hf.
Qed.

Lemma sorted_set_ascending (l : list Q) :
  strictly_ascending (Index.sorted_set l).
Proof.
  unfold Index.sorted_set.
  assert (H : forall acc, strictly_ascending acc ->
              strictly_ascending
                (fold_left (fun acc x => Index.set_insert x acc) l acc)).
  { induction l as [|x l IH]; intros acc Hacc; simpl; [assumption|].
    apply IH. now apply set_insert_ascending. }
  apply H. constructor.
Qed.

(** The window [q] starts empty and nothing is ever put into it, so no
    round of the cleanup loop finds anything to remove. *)
Lemma cleanup_noop (ts pts ipts : list Q) :
  Index.cleanup ts [] pts ipts = Returns (pts, ipts).
Proof.
  induction ts as [|t ts IH]; simpl; [reflexivity|exact IH].
Qed.

(** What packet mode returns: the merged and the keyframe timestamps, each
    through [sorted(set(...))], untouched by the cleanup loop. *)
Lemma load_timestamps_from_packets_value (lines : list Index.packet_line) :
  Index.load_timestamps_from_packets false lines =
  (let '(pts, dts, ipts, _) := Index.read_packets lines in
   match Index.sorted_set (pts ++ dts) with
   | [] => Returns None
   | p :: ps => Returns (Some (p :: ps, Index.sorted_set ipts))
   end).
Proof.
  unfold Index.load_timestamps_from_packets.
  destruct (Index.read_packets lines) as [[[pts dts] ipts] n].
  rewrite cleanup_noop. cbn [bind].
  now destruct (Index.sorted_set (pts ++ dts)).
Qed.

(** C2 (the code at the failing input).  Packet timestamps
    [1.000, 1.0015, 2.000]: the cleanup loop leaves the candidate index as it
    is, so the resulting [pts] index is [1.000, 1.0015, 2.000] and not
    [1.000, 2.000]; and for every input the loop changes neither the index
    nor the keyframes, because its window is never filled. *)
Theorem packet_cleanup_removes_nothing :
  Index.load_timestamps_from_packets false
    [Index.TsTime true (Some 1); Index.TsTime true (Some 1.0015);
     Index.TsTime true (Some 2)]
  = Returns (Some ([1; 1.0015; 2], [])) /\
  Ts.leb (Ts.abs (1.0015 - 1)) 0.002 = true /\
  (forall ts pts ipts,
      Index.cleanup ts [] pts ipts = Returns (pts, ipts)).
Proof.
  split; [reflexivity|]. split; [reflexivity|]. apply cleanup_noop.
Qed.

(** *** Frame mode on a stream of frames *)

Lemma getitem_last {A : Type} (l : list A) (v : A) :
  PyList.getitem (l ++ [v]) (-1) = Returns v.
Proof.
  unfold PyList.getitem. rewrite length_app. simpl length.
  change ((-1 <? 0)%Z) with true. cbv iota.
  destruct (Z.ltb_spec (-1 + Z.of_nat (length l + 1)) 0) as [?|_]; [lia|].
  destruct (Z.leb_spec (Z.of_nat (length l + 1))
              (-1 + Z.of_nat (length l + 1))) as [?|_]; [lia|].
  cbn [orb].
  replace (Z.to_nat (-1 + Z.of_nat (length l + 1))) with (length l) by lia.
  rewrite nth_error_app2 by lia. now rewrite Nat.sub_diag.
Qed.

(** A stream of frames each of which prints a timestamp that parses,
    followed by its picture type, is such a stream. *)
Lemma frame_stream_parsed (fs : list Index.frame) :
  parsed_timestamps (flat_map Index.frame_lines fs) = map Index.timestamp fs.
Proof.
  unfold parsed_timestamps.
  induction fs as [|[t i] fs IH]; [reflexivity|].
  cbn [flat_map Index.frame_lines Index.timestamp Index.is_I app map].
  destruct i; cbn [flat_map app]; now rewrite IH.
Qed.

Lemma frame_stream_fresh (fs : list Index.frame) (fresh : bool) :
  keyframes_fresh (flat_map Index.frame_lines fs) fresh = true.
Proof.
  revert fresh. induction fs as [|[t i] fs IH]; intros fresh; [reflexivity|].
  cbn [flat_map Index.frame_lines Index.timestamp Index.is_I app
       keyframes_fresh].
  destruct i; cbn [keyframes_fresh andb]; apply IH.
Qed.

(** The loop of frame mode on a stream whose parsed timestamps arrive
    strictly ascending and whose [pict_type=I] lines each follow a newly
    parsed timestamp: no [pts[-1]] fails, [pts] collects the parsed
    timestamps and the keyframes stay strictly ascending.  Every keyframe
    collected so far is below the last timestamp, strictly so when a
    timestamp has been parsed since the last [pict_type=I] line. *)
Lemma read_frames_fresh (lines : list Index.frame_line) (pts ipts : list Q)
    (fresh : bool) :
  keyframes_fresh lines fresh = true ->
  strictly_ascending (pts ++ parsed_timestamps lines) ->
  strictly_ascending ipts ->
  (forall k, In k ipts ->
     exists p, In p pts /\ if fresh then k < p else k <= p) ->
  (fresh = true -> pts <> []) ->
  exists ipts',
    Index.read_frames lines pts ipts
    = Returns (pts ++ parsed_timestamps lines, ipts') /\
    strictly_ascending ipts'.
Proof.
  unfold strictly_ascending.
  revert pts ipts fresh.
  induction lines as [|line lines IH]; intros pts ipts fresh Hf Hp Hi Hk Hne.
  - exists ipts. cbn. now rewrite app_nil_r.
  - destruct line as [[v|]| |]; cbn [Index.read_frames keyframes_fresh] in *.
    + change (parsed_timestamps (Index.BestEffortTime (Some v) :: lines))
        with (v :: parsed_timestamps lines) in *.
      replace (pts ++ v :: parsed_timestamps lines)
        with ((pts ++ [v]) ++ parsed_timestamps lines) in *
        by (now rewrite <- app_assoc).
      apply (IH (pts ++ [v]) ipts true); try assumption.
      * intros k Hin. exists v. split; [apply in_app_iff; right; now left|].
        destruct (Hk k Hin) as (p & Hin' & Hkp).
        apply StronglySorted_app_iff in Hp. destruct Hp as (Hp & _ & _).
        apply StronglySorted_app_iff in Hp. destruct Hp as (_ & _ & Hc).
        specialize (Hc p v Hin' (or_introl eq_refl)).
        destruct fresh; lra.
      * intros _. now destruct pts.
    + now apply (IH pts ipts fresh).
    + apply andb_true_iff in Hf. destruct Hf as [-> Hf].
      destruct (exists_last (Hne eq_refl)) as (pts0 & l & ->).
      rewrite getitem_last. cbn [bind].
      change (parsed_timestamps (Index.PictTypeI :: lines))
        with (parsed_timestamps lines) in *.
      assert (Hl : forall p, In p (pts0 ++ [l]) -> p <= l).
      { intros p Hin. apply in_app_iff in Hin.
        destruct Hin as [Hin|[<-|[]]]; [|lra].
        apply StronglySorted_app_iff in Hp. destruct Hp as (Hp & _ & _).
        apply StronglySorted_app_iff in Hp. destruct Hp as (_ & _ & Hc).
        specialize (Hc p l Hin (or_introl eq_refl)). lra. }
      apply (IH (pts0 ++ [l]) (ipts ++ [l]) false); try assumption.
      * apply StronglySorted_app_iff. split; [assumption|].
        split; [repeat constructor|].
        intros k x Hin [<-|[]].
        destruct (Hk k Hin) as (p & Hin' & Hkp). specialize (Hl p Hin'). lra.
      * intros k Hin. apply in_app_iff in Hin.
        destruct Hin as [Hin|[<-|[]]].
        -- destruct (Hk k Hin) as (p & Hin' & Hkp). exists p.
           split; [assumption|lra].
        -- exists l. split; [apply in_app_iff; right; now left|lra].
      * discriminate.
    + now apply (IH pts ipts fresh).
Qed.

(** C9 (as stated, refuted).  Frame mode returns the timestamps in the order
    of the stream: two frames at 2.0 and 1.0 give the [pts] sequence
    [2.0, 1.0], which is not ascending. *)
Lemma frame_mode_keeps_stream_order :
  Index.load_timestamps_from_frames false
    [Index.BestEffortTime (Some 2); Index.OtherFrameLine;
     Index.BestEffortTime (Some 1); Index.OtherFrameLine]
  = Returns (Some ([2; 1], [])) /\
  ~ strictly_ascending [2; 1].
Proof.
  split; [reflexivity|].
  intros H. apply StronglySorted_inv in H. destruct H as [_ H].
  apply Forall_inv in H. lra.
Qed.

(** C9 (amended).  Packet mode: whenever it produces an index, [pts] and
    [keyframes] are strictly ascending and duplicate-free, for every input.
    Frame mode neither sorts nor removes duplicates.  On a stream of lines
    with at least one timestamp that parses, whose parsed timestamps arrive
    strictly ascending and in which every [pict_type=I] line follows a
    timestamp parsed since the previous [pict_type=I] line, frame mode
    produces an index: its [pts] are the parsed timestamps in stream order,
    and its [pts] and [keyframes] are strictly ascending and
    duplicate-free. *)
Theorem index_strictly_ascending :
  forall (failed : bool) (lines : list Index.packet_line)
         (pts ipts : list Q) (frames : list Index.frame_line),
    Index.load_timestamps_from_packets failed lines
    = Returns (Some (pts, ipts)) ->
    parsed_timestamps frames <> [] ->
    strictly_ascending (parsed_timestamps frames) ->
    keyframes_fresh frames false = true ->
    (strictly_ascending pts /\ strictly_ascending ipts) /\
    (exists fpts fipts,
        Index.load_timestamps_from_frames false frames
        = Returns (Some (fpts, fipts)) /\
        fpts = parsed_timestamps frames /\
        strictly_ascending fpts /\ strictly_ascending fipts).
Proof.
  intros failed lines pts ipts frames Hp Hne Hasc Hfresh. split.
  - destruct failed.
    + unfold Index.load_timestamps_from_packets in Hp.
      destruct (Index.read_packets lines) as [[[p d] i] n]. discriminate.
    + rewrite load_timestamps_from_packets_value in Hp.
      destruct (Index.read_packets lines) as [[[p d] i] n].
      pose proof (sorted_set_ascending (p ++ d)) as Hs.
      destruct (Index.sorted_set (p ++ d)) as [|x xs]; [discriminate|].
      injection Hp as <- <-. split; [assumption|apply sorted_set_ascending].
  - destruct (read_frames_fresh frames [] [] false) as (fipts & Hr & Hi);
      try assumption.
    + constructor.
    + intros k [].
    + discriminate.
    + exists (parsed_timestamps frames), fipts.
      unfold Index.load_timestamps_from_frames. rewrite Hr.
      cbn [bind app].
      destruct (parsed_timestamps frames) as [|x xs]; [contradiction|].
      auto.
Qed.

Lemma index_strictly_ascending_witness :
  (strictly_ascending [1; 1.0015; 2] /\ strictly_ascending [1]) /\
  (exists fpts fipts,
      Index.load_timestamps_from_frames false
        [Index.BestEffortTime (Some 1); Index.PictTypeI;
         Index.BestEffortTime None; Index.OtherFrameLine;
         Index.BestEffortTime (Some 2); Index.PictTypeI]
      = Returns (Some (fpts, fipts)) /\
      fpts = parsed_timestamps
               [Index.BestEffortTime (Some 1); Index.PictTypeI;
                Index.BestEffortTime None; Index.OtherFrameLine;
                Index.BestEffortTime (Some 2); Index.PictTypeI] /\
      strictly_ascending fpts /\ strictly_ascending fipts).
Proof.
  apply (index_strictly_ascending false
           [Index.TsTime true (Some 1); Index.KeyFlag;
            Index.TsTime true (Some 1.0015);
            Index.TsTime true (Some 2)]
           [1; 1.0015; 2] [1]
           [Index.BestEffortTime (Some 1); Index.PictTypeI;
            Index.BestEffortTime None; Index.OtherFrameLine;
            Index.BestEffortTime (Some 2); Index.PictTypeI]).
  - reflexivity.
  - discriminate.
  - repeat constructor; simpl; lra.
  - reflexivity.
Defined.

(** Without a newly parsed timestamp between two [pict_type=I] lines the
    keyframes repeat: the second [pict_type=I] line takes the timestamp of
    the first frame again. *)
Example frame_mode_repeats_keyframe :
  Index.load_timestamps_from_frames false
    [Index.BestEffortTime (Some 1); Index.PictTypeI;
     Index.BestEffortTime None; Index.PictTypeI]
  = Returns (Some ([1], [1; 1])).
Proof. reflexivity. Qed.

(** * Part III: further properties of the code *)

(** ** [sidesi]: distance bounds and nearest neighbours *)



Lemma qualifies_true (min_diff d : Q) :
  Finder.qualifies min_diff d = true <-> ~ d == 0 /\ min_diff <= d.
Proof.
  unfold Finder.qualifies. cmp; simpl; intuition; discriminate.
Qed.


(** With a negative [min_diff] the index returned as the upper neighbour
    can point below the target: the test [min_diff <= d] then lets a
    negative difference through. *)
Example sidesi_negative_min_diff :
  Finder.sidesi 5 (-10) None [5; 3] = (None, Some 1%nat).
Proof. reflexivity. Qed.



Lemma ascending_nth (l : list Q) (i j : nat) :
  ascending l -> (i <= j < length l)%nat -> nth i l 0 <= nth j l 0.
Proof.
  unfold ascending. intros H. revert i j.
  induction H as [|x l Hs IH Hf]; intros i j Hij; simpl in Hij; [lia|].
  destruct j as [|j].
  - replace i with 0%nat by lia. simpl. lra.
  - destruct i as [|i]; simpl.
    + rewrite Forall_forall in Hf. apply Hf. apply nth_In. lia.
    + apply IH. lia.
Qed.

Lemma first_ge_some t ls i k :
  Finder.first_ge t ls i = Some k ->
  t <= nth (k - i) ls 0 /\
  (forall m, (m < k - i)%nat -> nth m ls 0 < t).
Proof.
  revert i. induction ls as [|e ls IH]; intros i H; simpl in H.
  - discriminate.
  - destruct (Ts_leb_spec t e) as [Hle|Hgt].
    + injection H as <-. rewrite Nat.sub_diag. simpl. split; [assumption|].
      intros m Hm. lia.
    + pose proof (first_ge_bound _ _ _ _ H) as Hb.
      apply IH in H. destruct H as [Hk Hbelow].
      replace (k - i)%nat with (S (k - S i)) by lia. simpl.
      split; [assumption|].
      intros [|m] Hm; [lra|]. apply Hbelow. lia.
Qed.

Lemma first_ge_none t ls i :
  Finder.first_ge t ls i = None ->
  forall m, (m < length ls)%nat -> nth m ls 0 < t.
Proof.
  revert i. induction ls as [|e ls IH]; intros i H m Hm; simpl in *.
  - lia.
  - destruct (Ts_leb_spec t e) as [Hle|Hgt]; [discriminate|].
    destruct m as [|m]; [lra|]. eapply IH; [eassumption|lia].
Qed.

Lemma scan_right_nearest t rest ri :
  match Finder.scan_right t 0 None rest ri with
  | Some j =>
      t < nth (j - ri) rest 0 /\
      (forall m, (m < j - ri)%nat -> nth m rest 0 <= t)
  | None => forall m, (m < length rest)%nat -> nth m rest 0 <= t
  end.
Proof.
  revert ri. induction rest as [|e rest IH]; intros ri; simpl.
  - intros m Hm. lia.
  - unfold Finder.too_far.
    destruct (Finder.qualifies 0 (e - t)) eqn:Eq.
    + apply qualifies_true in Eq. rewrite Nat.sub_diag. split; [lra|].
      intros m Hm. lia.
    + assert (He : e <= t).
      { destruct (Qlt_le_dec t e) as [Hlt|]; [|assumption].
        assert (Finder.qualifies 0 (e - t) = true)
          by (apply qualifies_true; split; lra).
        congruence. }
      specialize (IH (S ri)).
      destruct (Finder.scan_right t 0 None rest (S ri)) as [j|] eqn:Es.
      * pose proof (scan_right_found _ _ _ _ _ _ Es) as [Hr _].
        replace (j - ri)%nat with (S (j - S ri)) by lia.
        destruct IH as [Hj Hbelow]. split; [exact Hj|].
        intros [|m] Hm; [exact He|]. apply Hbelow. lia.
      * intros [|m] Hm; [exact He|]. apply IH. lia.
Qed.

Lemma scan_left_nearest t ls n :
  match Finder.scan_left t 0 None ls n with
  | Some i =>
      nth i ls 0 < t /\
      (forall m, (i < m < n)%nat -> t <= nth m ls 0)
  | None => forall m, (m < n)%nat -> t <= nth m ls 0
  end.
Proof.
  induction n as [|li IH]; simpl.
  - intros m Hm. lia.
  - unfold Finder.too_far.
    destruct (Finder.qualifies 0 (t - nth li ls 0)) eqn:Eq.
    + apply qualifies_true in Eq. split; [lra|]. intros m Hm. lia.
    + assert (He : t <= nth li ls 0).
      { destruct (Qlt_le_dec (nth li ls 0) t) as [Hlt|]; [|assumption].
        assert (Finder.qualifies 0 (t - nth li ls 0) = true)
          by (apply qualifies_true; split; lra).
        congruence. }
      destruct (Finder.scan_left t 0 None ls li) as [i|] eqn:Es.
      * pose proof (scan_left_found _ _ _ _ _ _ Es) as [Hi _].
        destruct IH as [Hlt Habove]. split; [exact Hlt|].
        intros m Hm. destruct (Nat.eq_dec m li) as [->|]; [exact He|].
        apply Habove. lia.
      * intros m Hm. destruct (Nat.eq_dec m li) as [->|]; [exact He|].
        apply IH. lia.
Qed.

Lemma sidesi_nearest :
  forall (t : Q) (ls : list Q),
    ascending ls ->
    match fst (Finder.sidesi t 0 None ls) with
    | Some i =>
        (i < length ls)%nat /\ nth i ls 0 < t /\
        (forall m, (i < m < length ls)%nat -> t <= nth m ls 0)
    | None => forall m, (m < length ls)%nat -> t <= nth m ls 0
    end /\
    match snd (Finder.sidesi t 0 None ls) with
    | Some j =>
        (j < length ls)%nat /\ t < nth j ls 0 /\
        (forall m, (m < j)%nat -> nth m ls 0 <= t)
    | None => forall m, (m < length ls)%nat -> nth m ls 0 <= t
    end.
Proof.
  intros t ls Hasc. unfold Finder.sidesi.
  destruct (Finder.first_ge t ls 0) as [k|] eqn:Ek.
  - pose proof (first_ge_bound _ _ _ _ Ek) as Hk.
    apply first_ge_some in Ek. rewrite Nat.sub_0_r in Ek.
    destruct Ek as [Hge Hbelow]. cbn [fst snd]. split.
    + pose proof (scan_left_nearest t ls k) as Hl.
      destruct (Finder.scan_left t 0 None ls k) as [i|] eqn:Es.
      * pose proof (scan_left_found _ _ _ _ _ _ Es) as [Hi _].
        destruct Hl as [Hlt Habove]. split; [lia|]. split; [exact Hlt|].
        intros m Hm. destruct (Nat.lt_ge_cases m k) as [Hmk|Hmk].
        -- apply Habove. lia.
        -- apply Qle_trans with (nth k ls 0); [exact Hge|].
           apply ascending_nth; [assumption|lia].
      * intros m Hm. destruct (Nat.lt_ge_cases m k) as [Hmk|Hmk].
        -- now apply Hl.
        -- apply Qle_trans with (nth k ls 0); [exact Hge|].
           apply ascending_nth; [assumption|lia].
    + pose proof (scan_right_nearest t (skipn k ls) k) as Hr.
      destruct (Finder.scan_right t 0 None (skipn k ls) k) as [j|] eqn:Es.
      * pose proof (scan_right_found _ _ _ _ _ _ Es) as [Hj _].
        rewrite length_skipn in Hj. destruct Hr as [Hgt Hbelow'].
        rewrite nth_skipn_shift in Hgt by lia.
        split; [lia|]. split; [exact Hgt|].
        intros m Hm. destruct (Nat.lt_ge_cases m k) as [Hmk|Hmk].
        -- specialize (Hbelow m Hmk). lra.
        -- specialize (Hbelow' (m - k)%nat).
           rewrite nth_skipn_shift in Hbelow' by lia. apply Hbelow'. lia.
      * intros m Hm. destruct (Nat.lt_ge_cases m k) as [Hmk|Hmk].
        -- specialize (Hbelow m Hmk). lra.
        -- specialize (Hr (m - k)%nat).
           rewrite nth_skipn_shift in Hr by lia. apply Hr.
           rewrite length_skipn. lia.
  - pose proof (first_ge_none _ _ _ Ek) as Hall.
    destruct ls as [|x ls]; cbn [fst snd].
    + split; intros m Hm; simpl in Hm; lia.
    + split.
      * pose proof (scan_left_nearest t (x :: ls) (length (x :: ls))) as Hl.
        destruct (Finder.scan_left t 0 None (x :: ls) (length (x :: ls)))
          as [i|] eqn:Es.
        -- pose proof (scan_left_found _ _ _ _ _ _ Es) as [Hi _].
           destruct Hl as [Hlt Habove]. repeat split; assumption.
        -- exact Hl.
      * intros m Hm. specialize (Hall m Hm). lra.
Qed.

(** X2.  On an ascending sequence, with [min_diff = 0] and no [max_diff],
    [sidesi] returns the nearest strict neighbours: on the left the last
    index whose element is below the target, on the right the first index
    whose element is above it, and [None] on a side exactly when the sequence
    has no element there. *)
Theorem sidesi_nearest_neighbours :
  forall (t : Q) (ls : list Q),
    ascending ls ->
    match fst (Finder.sidesi t 0 None ls) with
    | Some i =>
        (i < length ls)%nat /\ nth i ls 0 < t /\
        (forall m, (i < m < length ls)%nat -> t <= nth m ls 0)
    | None => forall m, (m < length ls)%nat -> t <= nth m ls 0
    end /\
    match snd (Finder.sidesi t 0 None ls) with
    | Some j =>
        (j < length ls)%nat /\ t < nth j ls 0 /\
        (forall m, (m < j)%nat -> nth m ls 0 <= t)
    | None => forall m, (m < length ls)%nat -> nth m ls 0 <= t
    end.
Proof.
  intros t ls Hasc. exact (sidesi_nearest t ls Hasc).
Qed.

Lemma sidesi_nearest_neighbours_witness :
  match fst (Finder.sidesi 5 0 None [3; 4; 5; 5; 6]) with
  | Some i =>
      (i < 5)%nat /\ nth i [3; 4; 5; 5; 6] 0 < 5 /\
      (forall m, (i < m < 5)%nat -> 5 <= nth m [3; 4; 5; 5; 6] 0)
  | None => forall m, (m < 5)%nat -> 5 <= nth m [3; 4; 5; 5; 6] 0
  end /\
  match snd (Finder.sidesi 5 0 None [3; 4; 5; 5; 6]) with
  | Some j =>
      (j < 5)%nat /\ 5 < nth j [3; 4; 5; 5; 6] 0 /\
      (forall m, (m < j)%nat -> nth m [3; 4; 5; 5; 6] 0 <= 5)
  | None => forall m, (m < 5)%nat -> nth m [3; 4; 5; 5; 6] 0 <= 5
  end.
Proof.
  apply (sidesi_nearest_neighbours 5 [3; 4; 5; 5; 6]).
  repeat constructor; lra.
Defined.

(** ** [closest] *)

Lemma min_by_dist_spec (target : Q) (elements : list Q) :
  match Finder.min_by_dist target elements with
  | Some el =>
      In el elements /\
      (forall e, In e elements ->
                 Qabs (target - el) <= Qabs (target - e))
  | None => elements = []
  end.
Proof.
  induction elements as [|x rest IH]; cbn [Finder.min_by_dist];
    [reflexivity|].
  destruct (Finder.min_by_dist target rest) as [m|].
  - destruct IH as [Hin Hmin]. unfold Ts.abs.
    destruct (Ts_leb_spec (Qabs (target - x)) (Qabs (target - m)))
      as [Hle|Hgt]; cbv iota.
    + split; [now left|]. intros e [<-|He]; [lra|].
      specialize (Hmin e He). lra.
    + split; [now right|]. intros e [<-|He]; [lra|]. now apply Hmin.
  - subst rest. split; [now left|]. intros e [<-|[]]. lra.
Qed.


(** ** [put_anchor] on arbitrary segment lists *)

Lemma pop_returns {A : Type} (l : list A) (i : Z) :
  (- Z.of_nat (length l) <= i < Z.of_nat (length l))%Z ->
  exists x r, PyList.pop l i = Returns (x, r).
Proof.
  intros Hi. unfold PyList.pop.
  set (k := if (i <? 0)%Z then (i + Z.of_nat (length l))%Z else i).
  assert (Hk : (0 <= k < Z.of_nat (length l))%Z).
  { unfold k. destruct (Z.ltb_spec i 0); lia. }
  destruct (Z.ltb_spec k 0) as [?|_]; [lia|].
  destruct (Z.leb_spec (Z.of_nat (length l)) k) as [?|_]; [lia|].
  cbn [orb].
  destruct (nth_error l (Z.to_nat k)) as [x|] eqn:En; [eauto|].
  apply nth_error_None in En. lia.
Qed.

Lemma pop_cut {A : Type} (l : list A) (i : Z) (x : A) (r : list A) :
  PyList.pop l i = Returns (x, r) ->
  exists l1 l2, l = l1 ++ x :: l2 /\ r = l1 ++ l2.
Proof.
  unfold PyList.pop.
  remember (if (i <? 0)%Z then (i + Z.of_nat (length l))%Z else i) as k.
  destruct ((k <? 0)%Z || (Z.of_nat (length l) <=? k)%Z); [discriminate|].
  destruct (nth_error l (Z.to_nat k)) as [y|] eqn:En; [|discriminate].
  intros [= <- <-].
  apply nth_error_split in En. destruct En as (l1 & l2 & El & Hlen).
  exists l1, l2. split; [exact El|].
  rewrite <- Hlen, El.
  destruct (cut_here l1 y l2) as (_ & Hf & Hs). rewrite Hf. f_equal. exact Hs.
Qed.

(** On any list, well-formed or not, every [pop] of [put_anchor] is within
    range; [move] stays unassigned exactly when both endpoints were located,
    in two different segments, and [split_if_inside] is off. *)
Lemma put_moves_outcome (flag : bool) (aa bb : Q) (segs : list segment) :
  exists r move,
    put_moves flag aa bb
      (fst (locate aa bb segs 0 (-1) (-1)))
      (snd (locate aa bb segs 0 (-1) (-1))) segs = (r, Returns move) /\
    (move = None <->
     flag = false /\
     fst (locate aa bb segs 0 (-1) (-1)) <> (-1)%Z /\
     snd (locate aa bb segs 0 (-1) (-1)) <> (-1)%Z /\
     fst (locate aa bb segs 0 (-1) (-1))
     <> snd (locate aa bb segs 0 (-1) (-1))).
Proof.
  rewrite locate_last_inside. cbn [fst snd].
  destruct (last_inside_located aa segs 0 (-1))
    as [[Ea _]|(l1 & [a1 b1] & l2 & E1 & Ea & _)];
  destruct (last_inside_located bb segs 0 (-1))
    as [[Eb _]|(m1 & [a2 b2] & m2 & E2 & Eb & _)];
  rewrite ?Z.add_0_l in *; rewrite Ea, Eb; unfold put_moves.
  - cbn. do 2 eexists. split; [reflexivity|].
    split; [discriminate|intros (_ & H & _); now elim H].
  - rewrite ?of_nat_not_minus_one, ?minus_one_below_of_nat. cbn.
    subst segs. rewrite pop_at.
    do 2 eexists. split; [reflexivity|].
    split; [discriminate|intros (_ & H & _); now elim H].
  - rewrite ?of_nat_not_minus_one, ?minus_one_below_of_nat. cbn.
    subst segs. rewrite pop_at.
    do 2 eexists. split; [reflexivity|].
    split; [discriminate|intros (_ & _ & H & _); now elim H].
  - rewrite !of_nat_not_minus_one, minus_one_below_of_nat.
    cbn [andb negb orb].
    destruct (Z.eqb_spec (Z.of_nat (length l1)) (Z.of_nat (length m1)))
      as [Heq|Hne].
    + replace (PyList.pop segs (Z.of_nat (length l1)))
        with (Returns ((a1, b1), l1 ++ l2))
        by (rewrite E1; symmetry; apply pop_at).
      destruct (Ts.eqb a1 aa); [|destruct (Ts.eqb b1 bb)];
        do 2 eexists; (split; [reflexivity|]);
        (split; [discriminate|intros (_ & _ & _ & H); now elim H]).
    + cbn [negb andb]. destruct flag.
      * assert (Hm : (length m1 < length segs)%nat).
        { rewrite E2, length_app. simpl. lia. }
        assert (Hl : length segs = S (length (l1 ++ l2))).
        { rewrite E1, !length_app. simpl. lia. }
        replace (PyList.pop segs (Z.of_nat (length l1)))
          with (Returns ((a1, b1), l1 ++ l2))
          by (rewrite E1; symmetry; apply pop_at).
        destruct (pop_returns (l1 ++ l2) (Z.of_nat (length m1) - 1))
          as ([a3 b3] & r & ->).
        { pose proof (length_app l1 l2) as Happ. lia. }
        do 2 eexists. split; [reflexivity|].
        split; [discriminate|intros (H & _); discriminate].
      * do 2 eexists. split; [reflexivity|].
        split; [intros _|reflexivity].
        repeat split; [lia|lia|assumption].
Qed.

(** X4.  On every Timeline, well-formed or not, [put_anchor] raises no
    [IndexError] (each [pop] it performs is within range): the call completes
    or raises [UnboundLocalError], and it raises exactly when
    [split_if_inside] is off, an anchor is pending and the loop has located
    both endpoints, in two different segments.  Either way the anchor is
    toggled: without a pending anchor the position becomes the anchor, with
    one the anchor is cleared. *)
Theorem put_anchor_raises_when_move_unassigned :
  forall (flag : bool) (pos : Q) (self : Timeline),
    (snd (put_anchor_call flag pos self) = Returns tt \/
     snd (put_anchor_call flag pos self) = Raises UnboundLocalError) /\
    (snd (put_anchor_call flag pos self) = Raises UnboundLocalError <->
     flag = false /\
     exists anc aai bbi,
       anchor self = Some anc /\
       locate (fst (sorted_endpoints anc pos)) (snd (sorted_endpoints anc pos))
              (segments self) 0 (-1) (-1) = (aai, bbi) /\
       aai <> (-1)%Z /\ bbi <> (-1)%Z /\ aai <> bbi) /\
    anchor (fst (put_anchor_call flag pos self))
    = match anchor self with
      | None => Some pos
      | Some _ => None
      end.
Proof.
  intros flag pos self. unfold put_anchor_call.
  destruct (anchor self) as [anc|].
  - destruct (sorted_endpoints anc pos) as [aa bb] eqn:Ese.
    destruct (put_moves_outcome flag aa bb (segments self))
      as (r & move & Hr & Hm).
    destruct (locate aa bb (segments self) 0 (-1) (-1)) as [aai bbi] eqn:El.
    cbn [fst snd] in Hr, Hm. rewrite Hr. unfold finish_put.
    destruct move as [m|]; cbn [fst snd anchor].
    + split; [now left|]. split; [|reflexivity].
      split; [discriminate|].
      intros (Hf & anc' & i & j & [= <-] & Hl & Hi & Hj & Hij).
      rewrite Ese in Hl. cbn [fst snd] in Hl. rewrite El in Hl.
      injection Hl as <- <-.
      assert (E : Some m = None) by (apply Hm; auto). discriminate.
    + split; [now right|]. split; [|reflexivity].
      split; [intros _|reflexivity].
      destruct Hm as [Hm _]. destruct (Hm eq_refl) as (Hf & Hi & Hj & Hij).
      split; [assumption|]. exists anc, aai, bbi.
      rewrite Ese. cbn [fst snd]. auto.
  - unfold finish_put. cbn [fst snd anchor].
    split; [now left|]. split; [|reflexivity].
    split; [discriminate|].
    intros (_ & anc & i & j & H & _). discriminate.
Qed.

(** ** No boundary is fabricated *)

Lemma bounded_snoc (K : Q -> Prop) (l : list segment) (s : segment) :
  Forall (bounded_by K) l -> bounded_by K s ->
  Forall (bounded_by K) (l ++ [s]).
Proof.
  intros Hl Hs. rewrite Forall_app. split; [assumption|now constructor].
Qed.

Lemma bounded_remove_between (K : Q -> Prop) (aa bb : Q) (l : list segment) :
  Forall (bounded_by K) l -> Forall (bounded_by K) (remove_between aa bb l).
Proof.
  intros H. rewrite Forall_forall in *. intros x Hx.
  apply remove_between_In in Hx. now apply H.
Qed.

Lemma bounded_pop (K : Q -> Prop) (l : list segment) (i : Z) (x : segment)
    (r : list segment) :
  Forall (bounded_by K) l -> PyList.pop l i = Returns (x, r) ->
  bounded_by K x /\ Forall (bounded_by K) r.
Proof.
  intros H Hp. apply pop_cut in Hp. destruct Hp as (l1 & l2 & -> & ->).
  rewrite Forall_app in H. destruct H as [H1 H2].
  apply Forall_inv in H2 as Hx. apply Forall_inv_tail in H2.
  split; [assumption|]. rewrite Forall_app. now split.
Qed.

Lemma bounded_sorted (K : Q -> Prop) (l : list segment) :
  Forall (bounded_by K) l -> Forall (bounded_by K) (sorted_by_start l).
Proof.
  intros H. rewrite Forall_forall in *. intros x Hx.
  apply -> sorted_by_start_In in Hx. now apply H.
Qed.

Ltac pop_case K Hl :=
  match goal with
  | |- context [PyList.pop ?l ?i] =>
      let E := fresh "E" in
      destruct (PyList.pop l i) as [e|[[? ?] ?]] eqn:E;
      [cbn [fst]; assumption|];
      apply (bounded_pop K _ _ _ _ Hl) in E;
      destruct E as [[? ?] ?]; cbn [fst snd] in *
  end.

Lemma put_moves_bounded (K : Q -> Prop) (flag : bool) (aa bb : Q)
    (aai bbi : Z) (segs : list segment) :
  K aa -> K bb -> Forall (bounded_by K) segs ->
  Forall (bounded_by K) (fst (put_moves flag aa bb aai bbi segs)).
Proof.
  intros Ha Hb Hl. unfold put_moves.
  destruct ((aai =? -1)%Z && (bbi =? -1)%Z).
  { cbn [fst]. apply bounded_snoc; [now apply bounded_remove_between|].
    now split. }
  destruct ((-1 <? aai)%Z && (aai =? bbi)%Z).
  { pop_case K Hl.
    destruct (Ts.eqb _ aa); [|destruct (Ts.eqb _ bb)]; cbn [fst].
    - apply bounded_snoc; [assumption|now split].
    - apply bounded_snoc; [assumption|now split].
    - rewrite Forall_app. split; [assumption|].
      repeat constructor; assumption. }
  destruct ((negb (aai =? -1)%Z && (bbi =? -1)%Z)
            || ((aai =? -1)%Z && negb (bbi =? -1)%Z)).
  { destruct (-1 <? aai)%Z; pop_case K Hl; cbn [fst].
    - apply bounded_snoc; [now apply bounded_remove_between|now split].
    - apply bounded_snoc; [now apply bounded_remove_between|now split]. }
  destruct (negb (aai =? bbi)%Z && flag).
  { pop_case K Hl.
    match goal with H : Forall (bounded_by K) ?l |- _ =>
      match goal with |- context [PyList.pop l _] => pop_case K H end end.
    cbn [fst].
    apply bounded_snoc; [now apply bounded_remove_between|now split]. }
  cbn [fst]. assumption.
Qed.

(** The object [put_anchor] leaves behind, completed or not, has no
    boundary that was not there or handed in. *)
Lemma put_anchor_call_bounded (K : Q -> Prop) (flag : bool) (pos : Q)
    (self : Timeline) :
  K pos ->
  Forall (bounded_by K) (segments self) ->
  (forall a, anchor self = Some a -> K a) ->
  Forall (bounded_by K) (segments (fst (put_anchor_call flag pos self))) /\
  (forall a, anchor (fst (put_anchor_call flag pos self)) = Some a -> K a).
Proof.
  intros Hp Hl Ha. unfold put_anchor_call.
  destruct (anchor self) as [anc|].
  - specialize (Ha anc eq_refl). unfold sorted_endpoints.
    destruct (Ts.ltb pos anc);
      match goal with |- context [locate ?x ?y ?l ?i ?u ?v] =>
        destruct (locate x y l i u v) as [aai bbi] end;
      match goal with |- context [put_moves ?f ?x ?y ?i ?j ?l] =>
        pose proof (put_moves_bounded K f x y i j l) as Hb;
        destruct (put_moves f x y i j l) as [r [e|move]] end;
      cbn [fst] in Hb;
      try (cbn [fst snd segments anchor];
           split; [now apply Hb|now intros a [= <-]]);
      unfold finish_put; destruct move; cbn [fst snd segments anchor];
      (split; [|discriminate]); apply bounded_sorted; now apply Hb.
  - unfold finish_put. cbn [fst snd segments anchor]. split.
    + now apply bounded_sorted.
    + now intros a [= <-].
Qed.


Lemma subseq_refl {A : Type} (l : list A) : subseq l l.
Proof. induction l; [constructor|now apply subseq_keep]. Qed.

Lemma remove_subseq {A : Type} (eqb : A -> A -> bool) (x : A) (l r : list A) :
  PyList.remove eqb x l = Returns r -> subseq r l.
Proof.
  revert r. induction l as [|y l IH]; intros r H; simpl in H; [discriminate|].
  destruct (eqb y x).
  - injection H as <-. apply subseq_skip, subseq_refl.
  - destruct (PyList.remove eqb x l) as [e|r']; [discriminate|].
    injection H as <-. apply subseq_keep. now apply IH.
Qed.

Lemma subseq_trans {A : Type} (l1 l2 l3 : list A) :
  subseq l1 l2 -> subseq l2 l3 -> subseq l1 l3.
Proof.
  intros H12 H23. revert l1 H12.
  induction H23 as [|x l2 l3 H IH|x l2 l3 H IH]; intros l1 H12.
  - assumption.
  - apply subseq_skip. now apply IH.
  - inversion H12; subst.
    + apply subseq_skip. now apply IH.
    + apply subseq_keep. now apply IH.
Qed.

Lemma subseq_In {A : Type} (l1 l2 : list A) (x : A) :
  subseq l1 l2 -> In x l1 -> In x l2.
Proof.
  induction 1 as [|y l1 l2 H IH|y l1 l2 H IH]; simpl; intuition.
Qed.

(** ** [del_anchor] on arbitrary segment lists *)

Lemma del_loop_subseq (fuel : nat) (t : Q) (i : nat) (segs : list segment)
    (anc : option Q) :
  (length segs <= fuel + i)%nat ->
  exists segs' anc',
    del_loop fuel t i segs anc = Returns (segs', anc') /\
    subseq segs' segs /\
    (anc' = anc \/ exists x, anc' = Some x /\ In x (boundaries segs)).
Proof.
  revert i segs anc. induction fuel as [|fuel IH]; intros i segs anc Hlen.
  - simpl. destruct (nth_error segs i) as [[a b]|] eqn:En.
    + assert (nth_error segs i <> None) as Hn by congruence.
      apply nth_error_Some in Hn. lia.
    + exists segs, anc. split; [reflexivity|].
      split; [apply subseq_refl|now left].
  - simpl. destruct (nth_error segs i) as [[a b]|] eqn:En.
    2:{ exists segs, anc. split; [reflexivity|].
        split; [apply subseq_refl|now left]. }
    apply nth_error_In in En as Hin.
    destruct (boundaries_In _ _ Hin) as [Hba Hbb]. cbn [fst snd] in *.
    assert (Hrm : exists r, PyList.remove seg_eqb (a, b) segs = Returns r /\
                            (length r < length segs)%nat /\ subseq r segs).
    { destruct (remove_present seg_eqb (a, b) segs) as [r Hr].
      - apply Exists_exists. exists (a, b).
        split; [assumption|apply seg_eqb_refl].
      - exists r. split; [assumption|].
        split; [|eapply remove_subseq; eassumption].
        apply remove_returns in Hr.
        destruct Hr as (l1 & y & l2 & -> & -> & _ & _).
        rewrite !length_app. simpl. lia. }
    destruct Hrm as (r & Hr & Hlr & Hsub).
    assert (Hstep : forall o, In o (boundaries segs) ->
              exists segs' anc',
                del_loop fuel t (S i) r (Some o) = Returns (segs', anc') /\
                subseq segs' segs /\
                (anc' = anc \/
                 exists x, anc' = Some x /\ In x (boundaries segs))).
    { intros o Ho.
      destruct (IH (S i) r (Some o)) as (segs' & anc' & E & Hs & Hanc);
        [lia|].
      exists segs', anc'. split; [assumption|].
      split; [eapply subseq_trans; eassumption|].
      right. destruct Hanc as [->|(x & -> & Hx)].
      - now exists o.
      - exists x. split; [reflexivity|].
        unfold boundaries in *. apply in_flat_map in Hx.
        destruct Hx as (s & Hs' & Hxs). apply in_flat_map.
        exists s. split; [eapply subseq_In; eassumption|assumption]. }
    destruct (Ts.eqb a t); [|destruct (Ts.eqb b t)].
    + rewrite Hr. cbn [bind]. now apply Hstep.
    + rewrite Hr. cbn [bind]. now apply Hstep.
    + apply IH. lia.
Qed.

(** [del_anchor] completes on every Timeline, so that [after_call] never
    takes the case of an exception in it. *)
Lemma del_anchor_returns (t : Q) (self : Timeline) :
  exists self', del_anchor t self = Returns self'.
Proof.
  unfold del_anchor. destruct (is_anchor t (anchor self)); [eauto|].
  destruct (del_loop_subseq (length (segments self)) t 0 (segments self)
              (anchor self)) as (segs' & anc' & -> & _); [lia|].
  cbn [bind]. eauto.
Qed.

(** X7.  [del_anchor] completes on every Timeline and every target; it never
    adds, changes or reorders segments (the list it leaves is the old one
    with some segments left out), and the anchor it leaves is absent, the old
    anchor, or a boundary of an old segment. *)
Theorem del_anchor_only_removes :
  forall (t : Q) (self : Timeline),
  exists self',
    del_anchor t self = Returns self' /\
    subseq (segments self') (segments self) /\
    (anchor self' = None \/ anchor self' = anchor self \/
     exists x, anchor self' = Some x /\ In x (boundaries (segments self))).
Proof.
  intros t self. unfold del_anchor.
  destruct (is_anchor t (anchor self)).
  - eexists. split; [reflexivity|]. cbn [segments anchor].
    split; [apply subseq_refl|now left].
  - destruct (del_loop_subseq (length (segments self)) t 0 (segments self)
                (anchor self)) as (segs' & anc' & -> & Hs & Hanc); [lia|].
    cbn [bind fst snd]. eexists. split; [reflexivity|].
    cbn [segments anchor]. split; [assumption|].
    destruct Hanc as [->|H]; auto.
Qed.

(** X8.  A target that is neither the pending anchor nor a boundary of any
    segment is ignored: [del_anchor] leaves the Timeline as it is. *)
Theorem del_anchor_ignores_unmatched :
  forall (t : Q) (self : Timeline),
    is_anchor t (anchor self) = false ->
    Forall (unmatched t) (segments self) ->
    del_anchor t self = Returns self.
Proof.
  intros t self Ha Hu. unfold del_anchor. rewrite Ha.
  rewrite del_loop_skip.
  - cbn. now destruct self.
  - lia.
  - intros k s _ Hk. apply nth_error_In in Hk.
    rewrite Forall_forall in Hu. now apply Hu.
Qed.

Lemma del_anchor_ignores_unmatched_witness :
  del_anchor 15 {| segments := [(10, 20); (30, 40)]; anchor := Some 50 |}
  = Returns {| segments := [(10, 20); (30, 40)]; anchor := Some 50 |}.
Proof.
  apply (del_anchor_ignores_unmatched 15
           {| segments := [(10, 20); (30, 40)]; anchor := Some 50 |}).
  - reflexivity.
  - repeat constructor; simpl; lra.
Defined.


Lemma bounded_boundaries (K : Q -> Prop) (l : list segment) :
  Forall (bounded_by K) l -> forall x, In x (boundaries l) -> K x.
Proof.
  intros H x Hx. unfold boundaries in Hx. apply in_flat_map in Hx.
  destruct Hx as (s & Hs & Hin). rewrite Forall_forall in H.
  destruct (H s Hs) as [K1 K2]. destruct Hin as [<-|[<-|[]]]; assumption.
Qed.




(** ** [apply_state] on arbitrary saved states *)

Lemma replay_as_run (saved : list segment) (self : Timeline) :
  replay saved self = run (replay_calls saved) self.
Proof.
  revert self. induction saved as [|[a b] saved IH]; intros self;
    [reflexivity|].
  cbn [replay replay_calls flat_map app run do_call fst snd].
  destruct (put_anchor true a self) as [e|s1]; cbn [bind]; [reflexivity|].
  destruct (put_anchor false b s1) as [e|s2]; cbn [bind]; [reflexivity|].
  apply IH.
Qed.

Lemma replay_calls_positions (saved : list segment) :
  put_positions (replay_calls saved) = boundaries saved.
Proof.
  induction saved as [|[a b] saved IH]; [reflexivity|].
  unfold replay_calls, boundaries in *. simpl. now rewrite IH.
Qed.

(** [put_anchor] toggles the anchor, whether it completes or raises. *)
Lemma put_anchor_call_anchor (flag : bool) (pos : Q) (self : Timeline) :
  anchor (fst (put_anchor_call flag pos self))
  = match anchor self with
    | None => Some pos
    | Some _ => None
    end.
Proof.
  unfold put_anchor_call. destruct (anchor self) as [anc|]; [|reflexivity].
  destruct (sorted_endpoints anc pos) as [aa bb].
  destruct (put_moves_outcome flag aa bb (segments self))
    as (r & move & Hr & _).
  destruct (locate aa bb (segments self) 0 (-1) (-1)) as [aai bbi].
  cbn [fst snd] in Hr. rewrite Hr. unfold finish_put.
  now destruct move.
Qed.

(** A call that raised has left no anchor pending. *)
Lemma put_anchor_call_raised_anchor (flag : bool) (pos : Q) (self : Timeline)
    (e : exn) :
  snd (put_anchor_call flag pos self) = Raises e ->
  anchor (fst (put_anchor_call flag pos self)) = None.
Proof.
  intros H. rewrite put_anchor_call_anchor.
  destruct (anchor self) as [anc|] eqn:E; [reflexivity|].
  unfold put_anchor_call in H. rewrite E in H. discriminate.
Qed.

(** With [split_if_inside] on (the default), [put_anchor] completes. *)
Lemma put_anchor_default_returns (pos : Q) (self : Timeline) :
  snd (put_anchor_call true pos self) = Returns tt.
Proof.
  unfold put_anchor_call. destruct (anchor self) as [anc|]; [|reflexivity].
  destruct (sorted_endpoints anc pos) as [aa bb].
  destruct (put_moves_outcome true aa bb (segments self))
    as (r & move & Hr & Hm).
  destruct (locate aa bb (segments self) 0 (-1) (-1)) as [aai bbi].
  cbn [fst snd] in Hr, Hm. rewrite Hr. unfold finish_put.
  destruct move; [reflexivity|].
  destruct Hm as [Hm _]. destruct (Hm eq_refl) as [Hf _]. discriminate.
Qed.

(** [replay] and [apply_state] are [replay_call] and [apply_state_call]
    without the object an exception leaves behind. *)
Lemma replay_completed (saved : list segment) (self : Timeline) :
  replay saved self = completed (replay_call saved self).
Proof.
  revert self. induction saved as [|[a b] saved IH]; intros self;
    [reflexivity|].
  cbn [replay replay_call]. unfold put_anchor at 1.
  destruct (put_anchor_call true a self) as [s1 [e|u]];
    unfold completed at 1; cbn [fst snd bind]; [reflexivity|].
  unfold put_anchor.
  destruct (put_anchor_call false b s1) as [s2 [e|u']];
    unfold completed at 1; cbn [fst snd bind]; [reflexivity|].
  apply IH.
Qed.

Lemma apply_state_completed (state : saved_state) (self : Timeline) :
  apply_state state self = completed (apply_state_call state self).
Proof.
  unfold apply_state, apply_state_call. rewrite replay_completed.
  destruct (replay_call (state_segments state) self) as [s [e|u]];
    reflexivity.
Qed.

(** Replaying saved segments keeps the list a chain built from boundaries
    that were there or are saved; the replay completes, or it stops with
    [UnboundLocalError] and no anchor pending. *)
Lemma replay_call_spec (K : Q -> Prop) (saved : list segment)
    (self : Timeline) :
  chained (segments self) ->
  Forall (bounded_by K) (segments self) ->
  (forall a, anchor self = Some a -> K a) ->
  (forall x, In x (boundaries saved) -> K x) ->
  chained (segments (fst (replay_call saved self))) /\
  Forall (bounded_by K) (segments (fst (replay_call saved self))) /\
  (snd (replay_call saved self) = Returns tt \/
   (snd (replay_call saved self) = Raises UnboundLocalError /\
    anchor (fst (replay_call saved self)) = None)).
Proof.
  revert self. induction saved as [|[a b] saved IH];
    intros self Hc Hb Ha Hk; cbn [replay_call].
  - cbn [fst snd]. auto.
  - assert (Ka : K a) by (apply Hk; simpl; auto).
    assert (Kb : K b) by (apply Hk; simpl; auto).
    assert (Hk' : forall x, In x (boundaries saved) -> K x).
    { intros x Hx. apply Hk. simpl. auto. }
    destruct (put_anchor_call_chained true a self Hc) as [Hc1 _].
    destruct (put_anchor_call_bounded K true a self Ka Hb Ha) as [Hb1 Ha1].
    pose proof (put_anchor_default_returns a self) as Ho1.
    destruct (put_anchor_call true a self) as [s1 o1].
    cbn [fst snd] in *. subst o1.
    destruct (put_anchor_call_chained false b s1 Hc1) as [Hc2 Ho2].
    destruct (put_anchor_call_bounded K false b s1 Kb Hb1 Ha1) as [Hb2 Ha2].
    pose proof (put_anchor_call_raised_anchor false b s1 UnboundLocalError)
      as Hr2.
    destruct (put_anchor_call false b s1) as [s2 o2].
    cbn [fst snd] in *.
    destruct Ho2 as [-> | ->].
    + now apply IH.
    + cbn [fst snd]. specialize (Hr2 eq_refl). auto.
Qed.

(** A saved list whose third range reaches from inside the first segment
    into the second one: the replay stops there, the fourth saved segment
    is never replayed and the saved anchor is not restored. *)
Example apply_state_stops_early :
  apply_state_call
    {| state_segments := [(10, 20); (30, 40); (15, 35); (50, 60)];
       state_anchor := Some 7 |} empty_timeline
  = ({| segments := [(10, 20); (30, 40)]; anchor := None |},
     Raises UnboundLocalError).
Proof. reflexivity. Qed.

(** X11.  Loading any saved state into a fresh editor, whatever the saved
    segment list looks like (unsorted, overlapping, inverted), raises no
    [IndexError]: [apply_state] completes, or a [put_anchor(False)] call
    stops it with [UnboundLocalError].  Either way the segments the editor is
    left with are sorted by start and pairwise non-overlapping, and every
    boundary is one of the saved boundaries.  The anchor is the saved
    anchor when [apply_state] completed and [None] when it was stopped. *)
Theorem apply_state_normalises :
  forall state : saved_state,
    (snd (apply_state_call state empty_timeline) = Returns tt \/
     snd (apply_state_call state empty_timeline) = Raises UnboundLocalError) /\
    apply_state state empty_timeline
    = completed (apply_state_call state empty_timeline) /\
    ascending_by_start
      (segments (fst (apply_state_call state empty_timeline))) /\
    non_overlapping
      (segments (fst (apply_state_call state empty_timeline))) /\
    (forall x,
        In x (boundaries
                (segments (fst (apply_state_call state empty_timeline)))) ->
        In x (boundaries (state_segments state))) /\
    anchor (fst (apply_state_call state empty_timeline))
    = match snd (apply_state_call state empty_timeline) with
      | Returns _ => state_anchor state
      | Raises _ => None
      end.
Proof.
  intros state.
  pose proof (apply_state_completed state empty_timeline) as Hcomp.
  unfold apply_state_call in *.
  destruct (replay_call_spec
              (fun x => In x (boundaries (state_segments state)))
              (state_segments state) empty_timeline)
    as (Hc & Hb & Ho).
  { apply empty_chained. }
  { constructor. }
  { discriminate. }
  { auto. }
  destruct (replay_call (state_segments state) empty_timeline) as [s o].
  cbn [fst snd] in *.
  destruct Ho as [-> | [-> Han]]; cbn [fst snd segments anchor] in *;
    (split; [auto|]); (split; [exact Hcomp|]);
    (split; [now apply chained_ascending|]);
    (split; [now apply chained_non_overlapping|]);
    (split; [now apply bounded_boundaries|]);
    [reflexivity|assumption].
Qed.

(** ** What [put_anchor] does to the marked ranges *)

Lemma covered_app (x : Q) (l1 l2 : list segment) :
  covered x (l1 ++ l2) <-> covered x l1 \/ covered x l2.
Proof.
  unfold covered. split.
  - intros (s & Hs & Hx). apply in_app_iff in Hs.
    destruct Hs; [left|right]; eauto.
  - intros [(s & Hs & Hx)|(s & Hs & Hx)]; exists s;
      (split; [apply in_app_iff; auto|assumption]).
Qed.

Lemma covered_one (x : Q) (s : segment) :
  covered x [s] <-> fst s <= x <= snd s.
Proof.
  unfold covered. split.
  - intros (s' & [<-|[]] & Hx). assumption.
  - intros Hx. exists s. split; [now left|assumption].
Qed.

Lemma covered_cons (x : Q) (s : segment) (l : list segment) :
  covered x (s :: l) <-> fst s <= x <= snd s \/ covered x l.
Proof.
  change (s :: l) with ([s] ++ l). rewrite covered_app, covered_one.
  reflexivity.
Qed.

Lemma covered_sorted (x : Q) (l : list segment) :
  covered x (sorted_by_start l) <-> covered x l.
Proof.
  unfold covered. split; intros (s & Hs & Hx); exists s;
    (split; [apply sorted_by_start_In; assumption|assumption]).
Qed.

(** Dropping the segments inside [ra, rb] and adding a segment that spans
    [ra, rb] adds exactly the new segment to what is covered. *)
Lemma covered_replace (x ra rb na nb : Q) (l : list segment) :
  na <= ra -> rb <= nb ->
  (covered x (remove_between ra rb l ++ [(na, nb)]) <->
   covered x l \/ na <= x <= nb).
Proof.
  intros Ha Hb. rewrite covered_app, covered_one. cbn [fst snd].
  unfold covered. split.
  - intros [(s & Hs & Hx)|Hx]; [left|now right].
    apply remove_between_In in Hs. exists s. now split.
  - intros [(s & Hs & Hx)|Hx]; [|now right].
    destruct (Qlt_le_dec (fst s) ra) as [H1|H1].
    + left. exists s. split; [|assumption].
      apply remove_between_In. split; [assumption|now left].
    + destruct (Qlt_le_dec rb (snd s)) as [H2|H2].
      * left. exists s. split; [|assumption].
        apply remove_between_In. split; [assumption|now right].
      * right. lra.
Qed.

Lemma put_moves_adds (flag : bool) (aa bb : Q) (segs : list segment)
    (aai bbi : Z) :
  chained segs -> aa <= bb ->
  locate aa bb segs 0 (-1) (-1) = (aai, bbi) ->
  aai <> bbi \/ aai = (-1)%Z ->
  flag = true \/ aai = (-1)%Z \/ bbi = (-1)%Z ->
  exists r move,
    put_moves flag aa bb aai bbi segs = (r, Returns (Some move)) /\
    forall x, covered x r <-> covered x segs \/ aa <= x <= bb.
Proof.
  intros Hc Hle Hloc Hdiff Hflag. rewrite locate_last_inside in Hloc.
  injection Hloc as <- <-.
  destruct (last_inside_located aa segs 0 (-1))
    as [[Ea Ha]|(l1 & s & l2 & E1 & Ea & Hina & Houta)];
  destruct (last_inside_located bb segs 0 (-1))
    as [[Eb Hb]|(m1 & r & m2 & E2 & Eb & Hinb & Houtb)];
  rewrite ?Z.add_0_l in *; rewrite Ea, Eb in *; unfold put_moves.
  - cbn. do 2 eexists. split; [reflexivity|]. intros x.
    apply covered_replace; lra.
  - rewrite ?of_nat_not_minus_one, ?minus_one_below_of_nat. cbn.
    subst segs. rewrite pop_at. destruct r as [a b]. cbn.
    do 2 eexists. split; [reflexivity|]. intros x.
    rewrite covered_replace by lra.
    rewrite !covered_app, covered_cons. cbn [fst snd].
    apply inside_true in Hinb. cbn [fst snd] in Hinb.
    unfold outside in Ha. rewrite Forall_forall in Ha.
    assert (Hs := Ha (a, b) (in_elt _ _ _)). apply inside_false in Hs.
    cbn [fst snd] in Hs. intuition lra.
  - rewrite ?of_nat_not_minus_one, ?minus_one_below_of_nat. cbn.
    subst segs. rewrite pop_at. destruct s as [a b]. cbn.
    do 2 eexists. split; [reflexivity|]. intros x.
    rewrite covered_replace by lra.
    rewrite !covered_app, covered_cons. cbn [fst snd].
    apply inside_true in Hina. cbn [fst snd] in Hina.
    unfold outside in Hb. rewrite Forall_forall in Hb.
    assert (Hs := Hb (a, b) (in_elt _ _ _)). apply inside_false in Hs.
    cbn [fst snd] in Hs. intuition lra.
  - rewrite !of_nat_not_minus_one, minus_one_below_of_nat.
    cbn [andb negb orb]. subst segs.
    destruct (Z.eqb_spec (Z.of_nat (length l1)) (Z.of_nat (length m1)))
      as [Heq|Hne]; [exfalso; destruct Hdiff; lia|].
    cbn [negb andb].
    destruct Hflag as [->|[?|?]]; [|lia|lia].
    assert (Hlt : (length l1 < length m1)%nat).
    { pose proof (located_in_order _ _ _ _ _ _ _ _
                    Hc Hle E2 Hina Hinb Houtb). lia. }
    destruct (cut_earlier _ _ _ _ _ _ E2 Hlt) as (mid & -> & ->).
    rewrite pop_at. destruct s as [a1 b1]. cbn [bind]. cbv beta iota.
    rewrite length_cut_pred, app_assoc, pop_at.
    destruct r as [a2 b2]. cbn [bind]. cbv beta iota.
    rewrite <- app_assoc.
    do 2 eexists. split; [reflexivity|]. intros x.
    apply inside_true in Hina, Hinb. cbn [fst snd] in Hina, Hinb.
    apply chained_cut in Hc. destruct Hc as (_ & _ & H2 & _).
    assert (H12 : valid (a2, b2) /\ before (a1, b1) (a2, b2)).
    { apply H2. apply in_app_iff. right. now left. }
    unfold valid, before in H12. cbn [fst snd] in H12.
    rewrite covered_replace by lra.
    rewrite !covered_app, !covered_cons, !covered_app, covered_cons.
    cbn [fst snd]. intuition lra.
Qed.

(** X5.  With an anchor pending, unless both endpoints fall into the same segment
    (the split) or into two different segments with [split_if_inside] off,
    [put_anchor] adds exactly the range between the sorted endpoints to what
    the segments cover: a point is covered afterwards if and only if it was
    covered before or lies in [aa, bb]. *)
Theorem put_anchor_adds_range :
  forall (flag : bool) (pos anc aa bb : Q) (aai bbi : Z) (self : Timeline),
    chained (segments self) ->
    anchor self = Some anc ->
    sorted_endpoints anc pos = (aa, bb) ->
    locate aa bb (segments self) 0 (-1) (-1) = (aai, bbi) ->
    aai <> bbi \/ aai = (-1)%Z ->
    flag = true \/ aai = (-1)%Z \/ bbi = (-1)%Z ->
    exists self',
      put_anchor flag pos self = Returns self' /\
      forall x, covered x (segments self') <->
                covered x (segments self) \/ aa <= x <= bb.
Proof.
  intros flag pos anc aa bb aai bbi self Hc Ha Hse Hloc Hdiff Hflag.
  unfold put_anchor.
  rewrite (put_anchor_call_pending _ _ _ _ Ha), Hse, Hloc.
  assert (Hle : aa <= bb).
  { unfold sorted_endpoints in Hse.
    destruct (Ts_ltb_spec pos anc); injection Hse as <- <-; lra. }
  destruct (put_moves_adds flag aa bb _ aai bbi Hc Hle Hloc Hdiff Hflag)
    as (r & move & -> & Hr).
  unfold finish_put, completed. cbn [fst snd].
  eexists. split; [reflexivity|]. cbn [segments].
  intros x. rewrite covered_sorted. apply Hr.
Qed.

Lemma put_anchor_adds_range_witness :
  exists self',
    put_anchor true 35
      {| segments := [(10, 20); (22, 25); (30, 40)]; anchor := Some 15 |}
    = Returns self' /\
    forall x, covered x (segments self') <->
              covered x [(10, 20); (22, 25); (30, 40)] \/ 15 <= x <= 35.
Proof.
  apply (put_anchor_adds_range true 35 15 15 35 0 2
           {| segments := [(10, 20); (22, 25); (30, 40)];
              anchor := Some 15 |}).
  - split; repeat constructor; unfold valid, before; simpl; lra.
  - reflexivity.
  - reflexivity.
  - reflexivity.
  - left. discriminate.
  - now left.
Defined.

Lemma strictly_covered_app (x : Q) (l1 l2 : list segment) :
  strictly_covered x (l1 ++ l2) <->
  strictly_covered x l1 \/ strictly_covered x l2.
Proof.
  unfold strictly_covered. split.
  - intros (s & Hs & Hx). apply in_app_iff in Hs.
    destruct Hs; [left|right]; eauto.
  - intros [(s & Hs & Hx)|(s & Hs & Hx)]; exists s;
      (split; [apply in_app_iff; auto|assumption]).
Qed.

Lemma strictly_covered_cons (x : Q) (s : segment) (l : list segment) :
  strictly_covered x (s :: l) <-> fst s < x < snd s \/ strictly_covered x l.
Proof.
  unfold strictly_covered. split.
  - intros (s' & [<-|Hs] & Hx); [now left|right; eauto].
  - intros [Hx|(s' & Hs & Hx)];
      [exists s; split; [now left|assumption]
      |exists s'; split; [now right|assumption]].
Qed.

Lemma strictly_covered_nil (x : Q) : strictly_covered x [] <-> False.
Proof. unfold strictly_covered. split; [intros (s & [] & _)|tauto]. Qed.

Lemma strictly_covered_sorted (x : Q) (l : list segment) :
  strictly_covered x (sorted_by_start l) <-> strictly_covered x l.
Proof.
  unfold strictly_covered. split; intros (s & Hs & Hx); exists s;
    (split; [apply sorted_by_start_In; assumption|assumption]).
Qed.

(** X6.  With an anchor pending and both endpoints in the same segment,
    [put_anchor] cuts the range between the sorted endpoints out of that
    segment and touches nothing else: a point lies strictly inside a segment
    afterwards if and only if it did before and is not in [aa, bb]. *)
Theorem put_anchor_cuts_range :
  forall (flag : bool) (pos anc aa bb : Q) (i : nat) (self : Timeline),
    chained (segments self) ->
    anchor self = Some anc ->
    sorted_endpoints anc pos = (aa, bb) ->
    locate aa bb (segments self) 0 (-1) (-1) = (Z.of_nat i, Z.of_nat i) ->
    exists self',
      put_anchor flag pos self = Returns self' /\
      forall x, strictly_covered x (segments self') <->
                strictly_covered x (segments self) /\ ~ aa <= x <= bb.
Proof.
  intros flag pos anc aa bb i self Hc Ha Hse Hloc.
  unfold put_anchor.
  rewrite (put_anchor_call_pending _ _ _ _ Ha), Hse, Hloc.
  assert (Hle : aa <= bb).
  { unfold sorted_endpoints in Hse.
    destruct (Ts_ltb_spec pos anc); injection Hse as <- <-; lra. }
  rewrite locate_last_inside in Hloc. injection Hloc as Ea Eb.
  destruct (last_inside_located aa (segments self) 0 (-1))
    as [[Ea' _]|(l1 & s & l2 & E1 & Ea' & Hina & Houta)]; [lia|].
  destruct (last_inside_located bb (segments self) 0 (-1))
    as [[Eb' _]|(m1 & r & m2 & E2 & Eb' & Hinb & Houtb)]; [lia|].
  assert (Hlen : length l1 = length m1) by lia.
  rewrite E1 in E2.
  destruct (cut_unique _ _ _ _ _ _ E2 Hlen) as (<- & <- & <-).
  assert (Hi : i = length l1) by lia. subst i.
  unfold put_moves.
  rewrite !of_nat_not_minus_one, minus_one_below_of_nat, Z.eqb_refl.
  cbn [andb]. rewrite E1 in *. rewrite pop_at.
  destruct s as [a b]. cbn [bind]. cbv beta iota.
  apply inside_true in Hina, Hinb. cbn [fst snd] in Hina, Hinb.
  apply chained_cut in Hc. destruct Hc as (_ & H1 & H2 & _).
  assert (Hothers : forall x,
            strictly_covered x (l1 ++ l2) -> ~ aa <= x <= bb).
  { intros x (s & Hs & Hx). apply in_app_iff in Hs. destruct Hs as [Hs|Hs].
    - destruct (H1 s Hs) as [Hv Hb]. unfold valid, before in *.
      cbn [fst snd] in *. lra.
    - destruct (H2 s Hs) as [Hv Hb]. unfold valid, before in *.
      cbn [fst snd] in *. lra. }
  assert (Hsplit : forall x,
            strictly_covered x (l1 ++ (a, b) :: l2) <->
            strictly_covered x (l1 ++ l2) \/ a < x < b).
  { intros x. rewrite !strictly_covered_app, strictly_covered_cons.
    cbn [fst snd]. tauto. }
  destruct (Ts_eqb_spec a aa) as [Eaa|Naa];
    [|destruct (Ts_eqb_spec b bb) as [Ebb|Nbb]];
    unfold finish_put, completed; cbn [fst snd];
    (eexists; split; [reflexivity|]); cbn [segments];
    intros x; rewrite strictly_covered_sorted, Hsplit;
    rewrite strictly_covered_app, ?strictly_covered_cons,
      ?strictly_covered_cons, strictly_covered_nil; cbn [fst snd];
    specialize (Hothers x); intuition lra.
Qed.

Lemma put_anchor_cuts_range_witness :
  exists self',
    put_anchor true 15 {| segments := [(10, 20)]; anchor := Some 12 |}
    = Returns self' /\
    forall x, strictly_covered x (segments self') <->
              strictly_covered x [(10, 20)] /\ ~ 12 <= x <= 15.
Proof.
  apply (put_anchor_cuts_range true 15 12 12 15 0
           {| segments := [(10, 20)]; anchor := Some 12 |}).
  - split; repeat constructor; unfold valid; simpl; lra.
  - reflexivity.
  - reflexivity.
  - reflexivity.
Defined.

(** ** Jumping between anchors and keyframes *)

Lemma insert_ts_In (x z : Q) (l : list Q) :
  In z (insert_ts x l) <-> z = x \/ In z l.
Proof.
  induction l as [|y r IH]; simpl.
  - intuition.
  - destruct (Ts.leb x y); simpl; [intuition|]. rewrite IH. intuition.
Qed.

Lemma sorted_ts_In (z : Q) (l : list Q) : In z (sorted_ts l) <-> In z l.
Proof.
  induction l as [|x l IH]; simpl; [tauto|].
  rewrite insert_ts_In, IH. intuition.
Qed.

Lemma insert_ts_ascending (x : Q) (l : list Q) :
  ascending l -> ascending (insert_ts x l).
Proof.
  unfold ascending. induction 1 as [|y r Hs IH Hf]; simpl.
  - repeat constructor.
  - destruct (Ts_leb_spec x y) as [Hle|Hgt].
    + constructor; [now constructor|]. constructor; [assumption|].
      rewrite Forall_forall in *. intros z Hz. specialize (Hf z Hz). lra.
    + constructor; [assumption|].
      rewrite Forall_forall in *. intros z Hz.
      apply insert_ts_In in Hz. destruct Hz as [->|Hz]; [lra|now apply Hf].
Qed.

Lemma sorted_ts_ascending (l : list Q) : ascending (sorted_ts l).
Proof.
  induction l as [|x l IH]; simpl; [constructor|].
  now apply insert_ts_ascending.
Qed.

Lemma chained_boundaries_ascending (l : list segment) :
  chained l -> ascending (boundaries l).
Proof.
  intros [Hv Hs]. unfold ascending.
  induction Hs as [|s l Hs IH Hf]; [constructor|].
  apply Forall_inv in Hv as Hvs. apply Forall_inv_tail in Hv.
  change (boundaries (s :: l)) with (fst s :: snd s :: boundaries l).
  assert (Hafter : Forall (Qle (snd s)) (boundaries l)).
  { rewrite Forall_forall in *. intros y Hy.
    unfold boundaries in Hy. apply in_flat_map in Hy.
    destruct Hy as (s' & Hs' & Hy).
    specialize (Hf s' Hs'). specialize (Hv s' Hs').
    unfold valid, before in *. destruct Hy as [<-|[<-|[]]]; lra. }
  constructor; [constructor; [now apply IH|assumption]|].
  constructor; [exact Hvs|].
  rewrite Forall_forall in *. intros y Hy. specialize (Hafter y Hy).
  unfold valid in Hvs. lra.
Qed.

Lemma jump_anchors_spec (self : Timeline) :
  chained (segments self) ->
  ascending (jump_anchors self) /\
  (forall w, In w (jump_anchors self) <-> jump_target self w).
Proof.
  intros Hc. unfold jump_anchors, jump_target.
  destruct (anchor self) as [a|].
  - split; [apply sorted_ts_ascending|].
    intros w. rewrite sorted_ts_In, in_app_iff. simpl.
    split; intros [H|H]; auto.
    + destruct H as [<-|[]]. now right.
    + injection H as <-. right. now left.
  - split; [now apply chained_boundaries_ascending|].
    intros w. split; [now left|]. intros [H|H]; [assumption|discriminate].
Qed.

(** X13.  On a well-formed segment list, [to_next_anchor] forwards seeks to the
    smallest segment boundary or pending anchor strictly after the playback
    position, backwards to the largest one strictly before it, and does not
    seek when there is none. *)
Theorem to_next_anchor_nearest :
  forall (pos : Q) (self : Timeline),
    chained (segments self) ->
    match to_next_anchor false pos self with
    | Some v =>
        jump_target self v /\ pos < v /\
        (forall w, jump_target self w -> pos < w -> v <= w)
    | None => forall w, jump_target self w -> w <= pos
    end /\
    match to_next_anchor true pos self with
    | Some v =>
        jump_target self v /\ v < pos /\
        (forall w, jump_target self w -> w < pos -> w <= v)
    | None => forall w, jump_target self w -> pos <= w
    end.
Proof.
  intros pos self Hc. destruct (jump_anchors_spec self Hc) as [Hasc Hin].
  unfold to_next_anchor.
  destruct (sidesi_nearest pos (jump_anchors self) Hasc) as [Hl Hr].
  set (A := jump_anchors self) in *. split.
  - destruct (snd (Finder.sidesi pos 0 None A)) as [j|].
    + destruct Hr as (Hj & Hgt & Hbelow).
      rewrite (nth_error_nth' A 0 Hj). split; [|split].
      * apply Hin, nth_In, Hj.
      * exact Hgt.
      * intros w Hw Hpw. apply Hin in Hw.
        destruct (In_nth A w 0 Hw) as (m & Hm & <-).
        destruct (Nat.lt_ge_cases m j) as [Hmj|Hmj].
        -- specialize (Hbelow m Hmj). lra.
        -- apply ascending_nth; [assumption|lia].
    + intros w Hw. apply Hin in Hw.
      destruct (In_nth A w 0 Hw) as (m & Hm & <-). now apply Hr.
  - destruct (fst (Finder.sidesi pos 0 None A)) as [i|].
    + destruct Hl as (Hi & Hlt & Habove).
      rewrite (nth_error_nth' A 0 Hi). split; [|split].
      * apply Hin, nth_In, Hi.
      * exact Hlt.
      * intros w Hw Hwp. apply Hin in Hw.
        destruct (In_nth A w 0 Hw) as (m & Hm & <-).
        destruct (Nat.lt_ge_cases i m) as [Him|Him].
        -- assert (pos <= nth m A 0) by (apply Habove; lia). lra.
        -- apply ascending_nth; [assumption|lia].
    + intros w Hw. apply Hin in Hw.
      destruct (In_nth A w 0 Hw) as (m & Hm & <-). now apply Hl.
Qed.

Lemma to_next_anchor_nearest_witness :
  match to_next_anchor false 12
          {| segments := [(10, 20); (30, 40)]; anchor := Some 15 |} with
  | Some v =>
      jump_target {| segments := [(10, 20); (30, 40)]; anchor := Some 15 |} v
      /\ 12 < v /\
      (forall w,
          jump_target
            {| segments := [(10, 20); (30, 40)]; anchor := Some 15 |} w ->
          12 < w -> v <= w)
  | None =>
      forall w,
        jump_target
          {| segments := [(10, 20); (30, 40)]; anchor := Some 15 |} w ->
        w <= 12
  end.
Proof.
  apply (proj1 (to_next_anchor_nearest 12
                  {| segments := [(10, 20); (30, 40)]; anchor := Some 15 |}
                  ltac:(split; repeat constructor;
                        unfold valid, before; simpl; lra))).
Defined.



(** ** The highlighted anchor and the key X *)






(** X16.  The key X while an anchor is pending only discards that anchor: the
    highlighted anchor is the pending one, so [del_anchor] clears it and
    leaves every segment in place. *)
Theorem press_x_discards_pending_anchor :
  forall (pos len a : Q) (self : Timeline),
    anchor self = Some a ->
    press_x pos len self
    = Returns {| segments := segments self; anchor := None |}.
Proof.
  intros pos len a self Ha. unfold press_x, painted_closest_anchor.
  rewrite Ha. unfold del_anchor. rewrite Ha. cbn [is_anchor].
  destruct (Ts_eqb_spec a a) as [_|H]; [reflexivity|].
  exfalso. apply H. reflexivity.
Qed.

Lemma press_x_discards_pending_anchor_witness :
  press_x 10 100 {| segments := [(10, 20)]; anchor := Some 50 |}
  = Returns {| segments := [(10, 20)]; anchor := None |}.
Proof.
  apply (press_x_discards_pending_anchor 10 100 50
           {| segments := [(10, 20)]; anchor := Some 50 |}).
  reflexivity.
Defined.



(** ** The index builders *)

Lemma getitem_In {A : Type} (l : list A) (i : Z) (v : A) :
  PyList.getitem l i = Returns v -> In v l.
Proof.
  unfold PyList.getitem.
  remember (if (i <? 0)%Z then (i + Z.of_nat (length l))%Z else i) as k.
  destruct ((k <? 0)%Z || (Z.of_nat (length l) <=? k)%Z); [discriminate|].
  destruct (nth_error l (Z.to_nat k)) as [y|] eqn:En; [|discriminate].
  intros [= <-]. eapply nth_error_In; eassumption.
Qed.

Lemma packet_step_inv (st : Index.packet_state) (line : Index.packet_line) :
  packets_inv st -> packets_inv (Index.packet_step st line).
Proof.
  destruct st as [[[pts dts] ipts] n]. unfold packets_inv, st_pts, st_dts,
    st_ipts. cbn [fst snd]. intros (Hp & Hd & Hi).
  destruct line as [|is_pts [v|]|]; cbn [Index.packet_step fst snd].
  - destruct (PyList.getitem pts (n - 1)) as [e|v] eqn:Ep.
    + destruct (PyList.getitem dts (n - 1)) as [e'|v] eqn:Ed;
        cbn [fst snd]; [now repeat split|].
      repeat split; try assumption. rewrite Forall_app. split; [assumption|].
      constructor; [|constructor]. right. eapply getitem_In; eassumption.
    + cbn [fst snd]. repeat split; try assumption.
      rewrite Forall_app. split; [assumption|].
      constructor; [|constructor]. left. eapply getitem_In; eassumption.
  - destruct (Ts_leb_spec 0 v) as [Hv|Hv];
      [destruct is_pts|]; cbn [fst snd]; repeat split; try assumption.
    + rewrite Forall_app. split; [assumption|now constructor].
    + eapply Forall_impl; [|exact Hi]. intros k [H|H]; [left|now right].
      apply in_app_iff. now left.
    + rewrite Forall_app. split; [assumption|now constructor].
    + eapply Forall_impl; [|exact Hi]. intros k [H|H]; [now left|right].
      apply in_app_iff. now left.
  - now repeat split.
  - now repeat split.
Qed.

Lemma fold_packets_inv (lines : list Index.packet_line)
    (st : Index.packet_state) :
  packets_inv st -> packets_inv (fold_left Index.packet_step lines st).
Proof.
  revert st. induction lines as [|line lines IH]; intros st H; simpl.
  - assumption.
  - apply IH. now apply packet_step_inv.
Qed.

Lemma read_packets_inv (lines : list Index.packet_line) :
  packets_inv (Index.read_packets lines).
Proof.
  apply fold_packets_inv. unfold packets_inv, st_pts, st_dts, st_ipts.
  cbn. repeat split; constructor.
Qed.

Lemma set_insert_keeps (x z : Q) (l : list Q) :
  In z l -> In z (Index.set_insert x l).
Proof.
  induction l as [|y r IH]; simpl; [tauto|].
  destruct (Ts.ltb x y); [simpl; tauto|].
  destruct (Ts.eqb x y); [simpl; tauto|].
  simpl. intros [->|H]; auto.
Qed.

Lemma set_insert_has (x : Q) (l : list Q) :
  exists y, In y (Index.set_insert x l) /\ y == x.
Proof.
  induction l as [|y r (z & Hz & Ez)]; simpl.
  - exists x. split; [now left|reflexivity].
  - destruct (Ts.ltb x y).
    + exists x. split; [now left|reflexivity].
    + destruct (Ts_eqb_spec x y) as [E|_].
      * exists y. split; [now left|]. now symmetry.
      * exists z. split; [now right|assumption].
Qed.

Lemma fold_set_insert_In (l acc : list Q) (z : Q) :
  In z (fold_left (fun acc x => Index.set_insert x acc) l acc) ->
  In z l \/ In z acc.
Proof.
  revert acc. induction l as [|x l IH]; intros acc H; simpl in *;
    [now right|].
  apply IH in H. destruct H as [H|H]; [auto|].
  apply set_insert_In in H. destruct H as [->|H]; auto.
Qed.

Lemma fold_set_insert_keeps (l acc : list Q) (z : Q) :
  In z acc -> In z (fold_left (fun acc x => Index.set_insert x acc) l acc).
Proof.
  revert acc. induction l as [|x l IH]; intros acc H; simpl;
    [assumption|].
  apply IH. now apply set_insert_keeps.
Qed.

Lemma fold_set_insert_has (l acc : list Q) (x : Q) :
  In x l ->
  exists y, In y (fold_left (fun acc x => Index.set_insert x acc) l acc) /\
            y == x.
Proof.
  revert acc. induction l as [|a l IH]; intros acc H; simpl in *; [tauto|].
  destruct H as [->|H].
  - destruct (set_insert_has x acc) as (y & Hy & Ey).
    exists y. split; [now apply fold_set_insert_keeps|assumption].
  - now apply IH.
Qed.

Lemma sorted_set_In (l : list Q) (z : Q) :
  In z (Index.sorted_set l) -> In z l.
Proof.
  intros H. apply fold_set_insert_In in H. destruct H as [H|[]]. exact H.
Qed.

Lemma sorted_set_has (l : list Q) (x : Q) :
  In x l -> exists y, In y (Index.sorted_set l) /\ y == x.
Proof. apply fold_set_insert_has. Qed.

Lemma packets_result (failed : bool) (lines : list Index.packet_line)
    (pts ipts : list Q) :
  Index.load_timestamps_from_packets failed lines
  = Returns (Some (pts, ipts)) ->
  failed = false /\
  pts = Index.sorted_set (st_pts (Index.read_packets lines)
                          ++ st_dts (Index.read_packets lines)) /\
  ipts = Index.sorted_set (st_ipts (Index.read_packets lines)) /\
  pts <> [].
Proof.
  destruct failed.
  - unfold Index.load_timestamps_from_packets.
    destruct (Index.read_packets lines) as [[[p d] i] n]. discriminate.
  - rewrite load_timestamps_from_packets_value.
    destruct (Index.read_packets lines) as [[[p d] i] n].
    unfold st_pts, st_dts, st_ipts. cbn [fst snd].
    destruct (Index.sorted_set (p ++ d)) as [|x xs]; [discriminate|].
    intros [= <- <-]. repeat split. discriminate.
Qed.

(** X18.  Every index packet mode produces is non-empty and holds no negative
    timestamp, and each of its keyframe timestamps equals an entry of its
    [pts] sequence. *)
Theorem packet_index_keyframes_among_pts :
  forall (failed : bool) (lines : list Index.packet_line)
         (pts ipts : list Q),
    Index.load_timestamps_from_packets failed lines
    = Returns (Some (pts, ipts)) ->
    pts <> [] /\
    (forall p, In p pts -> 0 <= p) /\
    (forall k, In k ipts -> 0 <= k /\ exists p, In p pts /\ p == k).
Proof.
  intros failed lines pts ipts H.
  apply packets_result in H. destruct H as (_ & -> & -> & Hne).
  destruct (read_packets_inv lines) as (Hp & Hd & Hi).
  set (st := Index.read_packets lines) in *.
  assert (Hall : forall p, In p (st_pts st ++ st_dts st) -> 0 <= p).
  { intros p Hin. rewrite Forall_forall in Hp, Hd.
    apply in_app_iff in Hin. destruct Hin; auto. }
  split; [assumption|]. split.
  - intros p Hin. apply Hall. now apply sorted_set_In.
  - intros k Hin. apply sorted_set_In in Hin.
    rewrite Forall_forall in Hi. specialize (Hi k Hin).
    assert (Hk : In k (st_pts st ++ st_dts st)).
    { apply in_app_iff. exact Hi. }
    split; [now apply Hall|]. now apply sorted_set_has.
Qed.

Lemma packet_index_keyframes_among_pts_witness :
  [1; 1.0015; 2] <> [] /\
  (forall p, In p [1; 1.0015; 2] -> 0 <= p) /\
  (forall k, In k [1] -> 0 <= k /\ exists p, In p [1; 1.0015; 2] /\ p == k).
Proof.
  apply (packet_index_keyframes_among_pts false
           [Index.TsTime true (Some 1); Index.KeyFlag;
            Index.TsTime true (Some 1.0015);
            Index.TsTime true (Some 2)]
           [1; 1.0015; 2] [1]).
  reflexivity.
Defined.

Lemma fold_packets_keeps (lines : list Index.packet_line)
    (st : Index.packet_state) (v : Q) :
  In v (st_pts st ++ st_dts st) ->
  In v (st_pts (fold_left Index.packet_step lines st)
        ++ st_dts (fold_left Index.packet_step lines st)).
Proof.
  revert st. induction lines as [|line lines IH]; intros st H; simpl;
    [assumption|].
  apply IH. destruct st as [[[pts dts] ipts] n].
  unfold st_pts, st_dts in *. cbn [fst snd] in *.
  destruct line as [|is_pts [w|]|]; cbn [Index.packet_step].
  - destruct (PyList.getitem pts (n - 1));
      [destruct (PyList.getitem dts (n - 1))|]; assumption.
  - destruct (Ts.leb 0 w); [destruct is_pts|]; cbn [fst snd];
      rewrite ?in_app_iff in *; simpl; tauto.
  - assumption.
  - assumption.
Qed.

Lemma fold_packets_records (lines : list Index.packet_line)
    (st : Index.packet_state) (is_pts : bool) (v : Q) :
  In (Index.TsTime is_pts (Some v)) lines -> 0 <= v ->
  In v (st_pts (fold_left Index.packet_step lines st)
        ++ st_dts (fold_left Index.packet_step lines st)).
Proof.
  revert st. induction lines as [|line lines IH]; intros st Hin Hv;
    [destruct Hin|].
  destruct Hin as [->|Hin]; [|now apply IH].
  simpl. apply fold_packets_keeps.
  destruct st as [[[pts dts] ipts] n]. cbn [Index.packet_step].
  destruct (Ts_leb_spec 0 v) as [_|H]; [|contradiction].
  unfold st_pts, st_dts. destruct is_pts; cbn [fst snd];
    rewrite !in_app_iff; simpl; tauto.
Qed.

(** X19.  Packet mode loses no timestamp: when ffprobe exits normally, every
    non-negative [pts_time] or [dts_time] value it printed has an equal
    entry in the returned [pts] sequence; in particular a stream with such a
    value never yields "no result". *)
Theorem packet_index_complete :
  forall (lines : list Index.packet_line) (is_pts : bool) (v : Q),
    In (Index.TsTime is_pts (Some v)) lines -> 0 <= v ->
    exists pts ipts,
      Index.load_timestamps_from_packets false lines
      = Returns (Some (pts, ipts)) /\
      exists p, In p pts /\ p == v.
Proof.
  intros lines is_pts v Hin Hv.
  pose proof (fold_packets_records lines ([], [], [], 0%Z) is_pts v Hin Hv)
    as Hrec.
  change (fold_left Index.packet_step lines ([], [], [], 0%Z))
    with (Index.read_packets lines) in Hrec.
  rewrite load_timestamps_from_packets_value.
  destruct (Index.read_packets lines) as [[[p d] i] n].
  unfold st_pts, st_dts in Hrec. cbn [fst snd] in Hrec.
  destruct (sorted_set_has _ _ Hrec) as (y & Hy & Ey).
  destruct (Index.sorted_set (p ++ d)) as [|x xs]; [destruct Hy|].
  eexists _, _. split; [reflexivity|]. now exists y.
Qed.

Lemma packet_index_complete_witness :
  exists pts ipts,
    Index.load_timestamps_from_packets false
      [Index.TsTime false (Some 2); Index.TsTime true (Some 1)]
    = Returns (Some (pts, ipts)) /\
    exists p, In p pts /\ p == 2.
Proof.
  apply (packet_index_complete
           [Index.TsTime false (Some 2); Index.TsTime true (Some 1)]
           false 2).
  - now left.
  - lra.
Defined.

(** *** Frame mode *)

Lemma read_frames_spec (lines : list Index.frame_line) (pts ipts pts' ipts'
    : list Q) :
  Index.read_frames lines pts ipts = Returns (pts', ipts') ->
  pts' = pts ++ parsed_timestamps lines /\
  (forall k, In k ipts' -> In k ipts \/ In k pts').
Proof.
  revert pts ipts. induction lines as [|line lines IH]; intros pts ipts H.
  - cbn in H. injection H as <- <-. unfold parsed_timestamps. simpl.
    rewrite app_nil_r. auto.
  - destruct line as [[v|]| |]; cbn [Index.read_frames] in H.
    + apply IH in H. destruct H as [-> Hk].
      unfold parsed_timestamps. simpl. rewrite <- app_assoc.
      split; [reflexivity|]. intros k Hin.
      specialize (Hk k Hin). rewrite <- app_assoc in Hk. exact Hk.
    + apply IH in H. exact H.
    + destruct (PyList.getitem pts (-1)) as [e|v] eqn:Eg; cbn [bind] in H;
        [discriminate|].
      apply getitem_In in Eg. apply IH in H. destruct H as [-> Hk].
      split; [reflexivity|]. intros k Hin. specialize (Hk k Hin).
      destruct Hk as [Hk|Hk]; [|now right].
      apply in_app_iff in Hk. destruct Hk as [Hk|[<-|[]]]; [now left|].
      right. apply in_app_iff. now left.
    + apply IH in H. exact H.
Qed.

(** X20.  Every index frame mode produces lists, as [pts], exactly the parsed
    frame timestamps in stream order (nothing sorted, nothing dropped), and
    each of its keyframe timestamps is an entry of [pts]. *)
Theorem frame_index_keyframes_among_pts :
  forall (failed : bool) (lines : list Index.frame_line) (pts ipts : list Q),
    Index.load_timestamps_from_frames failed lines
    = Returns (Some (pts, ipts)) ->
    pts = parsed_timestamps lines /\ pts <> [] /\
    (forall k, In k ipts -> In k pts).
Proof.
  intros failed lines pts ipts. unfold Index.load_timestamps_from_frames.
  destruct (Index.read_frames lines [] []) as [e|[p i]] eqn:Er;
    cbn [bind]; [discriminate|].
  destruct failed; [discriminate|].
  destruct p as [|x p]; [discriminate|]. intros [= <- <-].
  apply read_frames_spec in Er. destruct Er as [Ep Hk].
  split; [exact Ep|]. split; [discriminate|].
  intros k Hin. destruct (Hk k Hin) as [[]|H]. exact H.
Qed.

Lemma frame_index_keyframes_among_pts_witness :
  [2; 1] = parsed_timestamps
             [Index.BestEffortTime (Some 2); Index.PictTypeI;
              Index.BestEffortTime (Some 1); Index.OtherFrameLine] /\
  [2; 1] <> [] /\
  (forall k, In k [2] -> In k [2; 1]).
Proof.
  apply (frame_index_keyframes_among_pts false
           [Index.BestEffortTime (Some 2); Index.PictTypeI;
            Index.BestEffortTime (Some 1); Index.OtherFrameLine]
           [2; 1] [2]).
  reflexivity.
Defined.

Lemma read_frames_no_timestamp (lines : list Index.frame_line)
    (rest : list Index.frame_line) (ipts : list Q) :
  no_timestamp lines ->
  Forall (fun line => line <> Index.PictTypeI) lines ->
  Index.read_frames (lines ++ rest) [] ipts
  = Index.read_frames rest [] ipts.
Proof.
  unfold no_timestamp, parsed_timestamps.
  induction lines as [|line lines IH]; intros Hn Hf; [reflexivity|].
  apply Forall_inv in Hf as Hl. apply Forall_inv_tail in Hf.
  destruct line as [[v|]| |]; simpl in Hn; try discriminate;
    cbn [app Index.read_frames]; try (now apply IH).
  contradiction.
Qed.

(** X21.  Frame mode raises [IndexError] (it does not return) when a line
    [pict_type=I] is read before any frame timestamp has been parsed: the
    loop then evaluates [pts[-1]] on the empty list, outside any [try]. *)
Theorem frame_mode_raises_on_early_keyframe :
  forall (failed : bool) (before rest : list Index.frame_line),
    no_timestamp before ->
    Index.load_timestamps_from_frames failed
      (before ++ Index.PictTypeI :: rest)
    = Raises IndexError.
Proof.
  intros failed before rest Hn. unfold Index.load_timestamps_from_frames.
  assert (H : forall ipts,
             Index.read_frames (before ++ Index.PictTypeI :: rest) [] ipts
             = Raises IndexError).
  { unfold no_timestamp, parsed_timestamps in Hn.
    induction before as [|line before IH]; intros ipts.
    - reflexivity.
    - destruct line as [[v|]| |]; simpl in Hn; try discriminate;
        cbn [app Index.read_frames]; try (now apply IH).
      reflexivity. }
  now rewrite H.
Qed.

Lemma frame_mode_raises_on_early_keyframe_witness :
  Index.load_timestamps_from_frames false
    ([Index.BestEffortTime None]
     ++ Index.PictTypeI :: [Index.BestEffortTime (Some 1)])
  = Raises IndexError.
Proof.
  apply (frame_mode_raises_on_early_keyframe false
           [Index.BestEffortTime None] [Index.BestEffortTime (Some 1)]).
  reflexivity.
Defined.

(** ** Adjusted boundaries *)

Lemma snap_choice (x fd : Q) (pts : list Q) :
  snap x fd pts = x \/ (In (snap x fd pts) pts /\ ~ snap x fd pts == 0).
Proof.
  unfold snap, Finder.closest.
  pose proof (min_by_dist_spec x pts) as H.
  destruct (Finder.min_by_dist x pts) as [el|]; [|now left].
  destruct (Ts.ltb (Ts.abs (el - x)) fd); [|now left].
  destruct (Ts_eqb_spec el 0) as [E|N]; [now left|].
  right. split; [apply H|assumption].
Qed.

(** X23.  A boundary is never snapped to the timestamp 0: [snap] returns the
    boundary itself or a non-zero entry of the index (the test
    [closest(...) or a] takes a found 0.0 for "nothing found"). *)
Theorem snap_never_to_zero :
  forall (x fd : Q) (pts : list Q),
    ~ x == 0 -> ~ snap x fd pts == 0.
Proof.
  intros x fd pts Hx.
  destruct (snap_choice x fd pts) as [->|[_ H]]; assumption.
Qed.

Lemma snap_never_to_zero_witness :
  ~ snap 0.01 0.04 [0; 0.04; 0.08] == 0.
Proof.
  apply (snap_never_to_zero 0.01 0.04 [0; 0.04; 0.08]).
  intros H. discriminate H.
Defined.

(** ** The index as built *)

Lemma packets_keyframes_sub (failed : bool) (lines : list Index.packet_line)
    (pts ipts : list Q) :
  Index.load_timestamps_from_packets failed lines
  = Returns (Some (pts, ipts)) ->
  pts <> [] /\ forall k, In k ipts -> exists p, In p pts /\ p == k.
Proof.
  intros H. apply packets_result in H. destruct H as (_ & -> & -> & Hne).
  split; [assumption|]. intros k Hin. apply sorted_set_In in Hin.
  destruct (read_packets_inv lines) as (_ & _ & Hi).
  rewrite Forall_forall in Hi. specialize (Hi k Hin).
  apply sorted_set_has. apply in_app_iff. exact Hi.
Qed.

Lemma frames_keyframes_sub (failed : bool) (lines : list Index.frame_line)
    (pts ipts : list Q) :
  Index.load_timestamps_from_frames failed lines
  = Returns (Some (pts, ipts)) ->
  pts <> [] /\ forall k, In k ipts -> In k pts.
Proof.
  unfold Index.load_timestamps_from_frames.
  destruct (Index.read_frames lines [] []) as [e|[p i]] eqn:Er;
    cbn [bind]; [discriminate|].
  destruct failed; [discriminate|].
  destruct p as [|x p]; [discriminate|]. intros [= <- <-].
  apply read_frames_spec in Er. destruct Er as [Ep Hk].
  split; [discriminate|].
  intros k Hin. destruct (Hk k Hin) as [[]|H]. exact H.
Qed.

(** X24.  Index construction falls back in order: when packet mode yields an
    index, that index is the result and frame mode plays no part (not even
    an error of it can surface).  Whatever mode produced it, the resulting
    index is either empty in both sequences (the failure case) or has a
    non-empty [pts] in which every keyframe timestamp has an equal entry. *)
Theorem build_index_keyframes_among_pts :
  forall (pf : bool) (pl : list Index.packet_line) (ff : bool)
         (fl : list Index.frame_line),
    (forall index,
        Index.load_timestamps_from_packets pf pl = Returns (Some index) ->
        build_index pf pl ff fl = Returns index) /\
    (forall pts ipts,
        build_index pf pl ff fl = Returns (pts, ipts) ->
        (pts = [] /\ ipts = []) \/
        (pts <> [] /\ forall k, In k ipts -> exists p, In p pts /\ p == k)).
Proof.
  intros pf pl ff fl. unfold build_index. split.
  - intros index ->. reflexivity.
  - intros pts ipts.
    destruct (Index.load_timestamps_from_packets pf pl) as [e|[[p i]|]] eqn:Ep;
      cbn [bind]; [discriminate| |].
    + intros [= <- <-]. right. eapply packets_keyframes_sub; eassumption.
    + destruct (Index.load_timestamps_from_frames ff fl) as [e|[[p i]|]] eqn:Ef;
        cbn [bind]; [discriminate| |].
      * intros [= <- <-]. right.
        destruct (frames_keyframes_sub _ _ _ _ Ef) as [Hne Hk].
        split; [assumption|]. intros k Hin. exists k.
        split; [now apply Hk|reflexivity].
      * intros [= <- <-]. now left.
Qed.

Lemma build_index_keyframes_among_pts_witness :
  build_index false [Index.TsTime true (Some 1); Index.KeyFlag] false
    [Index.PictTypeI]
  = Returns ([1], [1]).
Proof.
  apply (proj1 (build_index_keyframes_among_pts false
                  [Index.TsTime true (Some 1); Index.KeyFlag] false
                  [Index.PictTypeI]) ([1], [1])).
  reflexivity.
Defined.

(** ** [del_anchor] removes one segment only *)

Lemma first_matched (t : Q) (segs : list segment) :
  Exists (fun s => fst s == t \/ snd s == t) segs ->
  exists l1 a b l2,
    segs = l1 ++ (a, b) :: l2 /\ Forall (unmatched t) l1 /\
    (a == t \/ b == t).
Proof.
  induction segs as [|[a b] segs IH]; intros H.
  - inversion H.
  - destruct (Qeq_dec a t) as [Ea|Na].
    + exists [], a, b, segs. repeat split; [constructor|now left].
    + destruct (Qeq_dec b t) as [Eb|Nb].
      * exists [], a, b, segs. repeat split; [constructor|now right].
      * inversion H as [? ? Hm|? ? Hm]; subst.
        -- cbn [fst snd] in Hm. tauto.
        -- destruct (IH Hm) as (l1 & a' & b' & l2 & -> & Hu & Hab).
           exists ((a, b) :: l1), a', b', l2.
           repeat split; [|assumption].
           constructor; [|assumption]. now split.
Qed.

Lemma nth_error_tail {A : Type} (l : list A) (m : nat) (s : A) :
  nth_error l (S m) = Some s -> In s (tl l).
Proof.
  destruct l as [|x l]; simpl; [discriminate|]. apply nth_error_In.
Qed.

(** As [del_loop_hit], but the segment right after the one that is hit may
    have the target as a boundary too: the iterator skips it. *)
Lemma del_loop_hit_first (fuel : nat) (t : Q) (i : nat) l1 (a b : Q) l2
    (anc : option Q) :
  (length (l1 ++ (a, b) :: l2) <= fuel + i)%nat -> (i <= length l1)%nat ->
  Forall (unmatched t) l1 -> Forall (unmatched t) (tl l2) ->
  (a == t \/ b == t) ->
  del_loop fuel t i (l1 ++ (a, b) :: l2) anc
  = Returns (l1 ++ l2, Some (if Ts.eqb a t then b else a)).
Proof.
  intros Hlen Hi H1 H2 Hab.
  assert (Hrm : PyList.remove seg_eqb (a, b) (l1 ++ (a, b) :: l2)
                = Returns (l1 ++ l2)).
  { apply remove_at; [|apply seg_eqb_refl].
    rewrite Forall_forall in *. intros z Hz. destruct (H1 z Hz) as [Hza Hzb].
    unfold seg_eqb. cbn [fst snd].
    destruct (Ts_eqb_spec (fst z) a), (Ts_eqb_spec (snd z) b);
      try reflexivity; exfalso; destruct Hab; lra. }
  revert i Hlen Hi. induction fuel as [|fuel IH]; intros i Hlen Hi.
  - rewrite length_app in Hlen. simpl in Hlen. lia.
  - simpl. destruct (Nat.eq_dec i (length l1)) as [->|Hne].
    + rewrite (proj1 (cut_here _ _ _)).
      assert (Hskip : forall o,
                 del_loop fuel t (S (length l1)) (l1 ++ l2) o
                 = Returns (l1 ++ l2, o)).
      { intros o. apply del_loop_skip.
        - rewrite length_app in *. simpl in Hlen. lia.
        - intros k s Hk Hs. rewrite nth_error_app2 in Hs by lia.
          replace (k - length l1)%nat with (S (k - S (length l1))) in Hs
            by lia.
          apply nth_error_tail in Hs. rewrite Forall_forall in H2.
          now apply H2. }
      destruct (Ts_eqb_spec a t) as [Ea|Ea].
      * rewrite Hrm. cbn [bind]. apply Hskip.
      * destruct (Ts_eqb_spec b t) as [Eb|Eb]; [|tauto].
        rewrite Hrm. cbn [bind]. apply Hskip.
    + assert (Hlt : (i < length l1)%nat) by lia.
      rewrite nth_error_app1 by assumption.
      destruct (nth_error l1 i) as [[x y]|] eqn:En.
      2:{ apply nth_error_None in En. lia. }
      apply nth_error_In in En. rewrite Forall_forall in H1.
      destruct (H1 _ En) as [Hx Hy]. cbn [fst snd] in *.
      destruct (Ts_eqb_spec x t); [contradiction|].
      destruct (Ts_eqb_spec y t); [contradiction|].
      apply IH; lia.
Qed.

(** X9.  On a sorted, non-overlapping list of segments with [start < end], a
    target that is a boundary of some segment but not the pending anchor
    makes [del_anchor] remove the first segment that has it as a boundary,
    and only that one, also when the next segment abuts at the target; the
    other boundary of the removed segment becomes the anchor. *)
Theorem del_anchor_removes_one_segment :
  forall (t : Q) (self : Timeline),
    chained (segments self) ->
    Forall (fun s => fst s < snd s) (segments self) ->
    is_anchor t (anchor self) = false ->
    Exists (fun s => fst s == t \/ snd s == t) (segments self) ->
    exists l1 a b l2,
      segments self = l1 ++ (a, b) :: l2 /\
      Forall (unmatched t) l1 /\ (a == t \/ b == t) /\
      del_anchor t self
      = Returns {| segments := l1 ++ l2;
                   anchor := Some (if Ts.eqb a t then b else a) |}.
Proof.
  intros t self Hc Hstrict Hanc Hex.
  destruct (first_matched t _ Hex) as (l1 & a & b & l2 & E & Hu & Hab).
  exists l1, a, b, l2. split; [assumption|]. split; [assumption|].
  split; [assumption|].
  unfold del_anchor. rewrite Hanc, E.
  rewrite E in Hc, Hstrict.
  assert (Htl : Forall (unmatched t) (tl l2)).
  { destruct l2 as [|s1 l2]; [constructor|]. cbn [tl].
    apply chained_cut in Hc. destruct Hc as (Hv & _ & H2 & _ & Hc').
    rewrite Forall_app in Hstrict. destruct Hstrict as [_ Hs].
    apply Forall_inv_tail in Hs. apply Forall_inv in Hs as Hs1.
    apply Forall_inv_tail in Hs.
    destruct (H2 s1 (or_introl eq_refl)) as [_ Hb1].
    destruct Hc' as [_ Hss]. apply StronglySorted_app_iff in Hss.
    destruct Hss as (_ & Hss & _). apply StronglySorted_inv in Hss.
    destruct Hss as [_ Hf1].
    rewrite Forall_forall in *. intros z Hz.
    specialize (Hf1 z Hz). specialize (Hs z Hz).
    unfold unmatched, valid, before in *. cbn [fst snd] in *.
    split; intro; destruct Hab; lra. }
  rewrite (del_loop_hit_first _ t 0 l1 a b l2 (anchor self));
    try assumption.
  - reflexivity.
  - rewrite Nat.add_0_r. apply Nat.le_refl.
  - apply Nat.le_0_l.
Qed.

Lemma del_anchor_removes_one_segment_witness :
  exists l1 a b l2,
    [(0, 10); (10, 20); (20, 30)] = l1 ++ (a, b) :: l2 /\
    Forall (unmatched 10) l1 /\ (a == 10 \/ b == 10) /\
    del_anchor 10 {| segments := [(0, 10); (10, 20); (20, 30)];
                     anchor := None |}
    = Returns {| segments := l1 ++ l2;
                 anchor := Some (if Ts.eqb a 10 then b else a) |}.
Proof.
  apply (del_anchor_removes_one_segment 10
           {| segments := [(0, 10); (10, 20); (20, 30)]; anchor := None |}).
  - split; repeat constructor; unfold valid, before; simpl; lra.
  - repeat constructor; simpl; lra.
  - reflexivity.
  - constructor. right. reflexivity.
Defined.
